(** * Detection extraction and evaluation rows of [train.py]

    A shallow embedding of the evaluation part of [train.py]: the class
    registry ([class_map], [classes]), the argument check ([check_args]) and
    the holdout evaluation loop of [main], together with the heatmap decoder
    and the name lookup of [utils], which the loop calls.

    Python numbers (ints and floats mixed in one tuple) are rationals [Q];
    [==] on them is [Qeq_bool] and [<] is [Qlt].  A float literal stands for
    the exact value of its double, an int for itself, and every number is
    kept in lowest terms.  The decoder only compares heatmap values and
    averages pixel coordinates, which rationals do exactly. *)

From Stdlib Require Import QArith.
From stdpp Require Import gmap strings list fin_maps sorting pretty.

Local Open Scope Q_scope.

(** ** Python values used by the registry *)

(** An RGB colour, a 3-tuple of numbers. *)
Definition color : Type := Q * Q * Q.

(** A value of [class_map]: [(idx, display, color, radius)]. *)
Record CanonicalClass := mkClass {
  index : nat;
  displayName : string;
  classColor : color;
  expectedRadiusFraction : Q
}.

Module Py.

(** [a == b] on numbers. *)
Definition num_eqb (a b : Q) : bool := Qeq_bool a b.

(** [a < b] on numbers. *)
Definition num_ltb (a b : Q) : bool :=
  match a ?= b with Lt => true | _ => false end.

(** [a == b] and [a < b] on strings: code points, left to right. *)
Definition str_eqb (a b : string) : bool := String.eqb a b.
Definition str_ltb (a b : string) : bool := String.ltb a b.

(** Tuples compare lexicographically: the first position where the two
    differ under [==] decides [<]. *)
Definition color_eqb (a b : color) : bool :=
  let '(r1, g1, b1) := a in
  let '(r2, g2, b2) := b in
  num_eqb r1 r2 && num_eqb g1 g2 && num_eqb b1 b2.

Definition color_ltb (a b : color) : bool :=
  let '(r1, g1, b1) := a in
  let '(r2, g2, b2) := b in
  if negb (num_eqb r1 r2) then num_ltb r1 r2
  else if negb (num_eqb g1 g2) then num_ltb g1 g2
  else num_ltb b1 b2.

Definition class_eqb (a b : CanonicalClass) : bool :=
  Nat.eqb (index a) (index b)
  && str_eqb (displayName a) (displayName b)
  && color_eqb (classColor a) (classColor b)
  && num_eqb (expectedRadiusFraction a) (expectedRadiusFraction b).

Definition class_ltb (a b : CanonicalClass) : bool :=
  if negb (Nat.eqb (index a) (index b)) then Nat.ltb (index a) (index b)
  else if negb (str_eqb (displayName a) (displayName b))
       then str_ltb (displayName a) (displayName b)
  else if negb (color_eqb (classColor a) (classColor b))
       then color_ltb (classColor a) (classColor b)
  else num_ltb (expectedRadiusFraction a) (expectedRadiusFraction b).

(** [set(xs)]: the elements of [xs] up to [==], each kept once.  The
    iteration order of a Python set is not specified; this one lists the
    first occurrences, and [sorted_set_any_order] below shows that the
    order does not matter to [sorted]. *)
Fixpoint set (xs : list CanonicalClass) : list CanonicalClass :=
  match xs with
  | [] => []
  | x :: rest =>
      x :: filter (fun y => class_eqb x y = false) (set rest)
  end.

(** [sorted(xs)]: a stable sort that only asks [<]. *)
Fixpoint insert_sorted (x : CanonicalClass) (xs : list CanonicalClass)
  : list CanonicalClass :=
  match xs with
  | [] => [x]
  | y :: rest =>
      if class_ltb x y then x :: y :: rest else y :: insert_sorted x rest
  end.

Definition sorted (xs : list CanonicalClass) : list CanonicalClass :=
  foldl (fun acc x => insert_sorted x acc) [] xs.

End Py.

(** ** The class registry of [main] *)

Definition Eosinophil : color := (1, 5404319552844595 # 9007199254740992, 0).
Definition Lymphocyte : color := (0, 1, 0).
Definition MacroMono : color := (1, 0, 1).
Definition Neutrophil : color := (0, 1, 1).

Definition TILE_SZ : Q := 1024.

(** [class_map], a dict from the raw label name to its tuple. *)
Definition class_map_items : list (string * CanonicalClass) :=
  [ ("Eosinophil"%string, mkClass 0 "Eosinophil" Eosinophil (Qred (61 / TILE_SZ)));
    ("Lymphocyte"%string, mkClass 1 "Lymphocyte" Lymphocyte (Qred (30 / TILE_SZ)));
    ("Macrophage"%string, mkClass 2 "Macro+Mono" MacroMono (Qred (76 / TILE_SZ)));
    ("Monocyte"%string, mkClass 2 "Macro+Mono" MacroMono (Qred (76 / TILE_SZ)));
    ("Neutrophil"%string, mkClass 3 "Neutrophil" Neutrophil (Qred (52 / TILE_SZ))) ].

Definition class_map : gmap string CanonicalClass := list_to_map class_map_items.

(** [class_map[raw]]. *)
Definition resolve (raw : string) : option CanonicalClass := class_map !! raw.

(** [class_map.values()]. *)
Definition class_map_values : list CanonicalClass := (map_to_list class_map).*2.

(** [classes = sorted(set(class_map.values()))]. *)
Definition classes : list CanonicalClass := Py.sorted (Py.set class_map_values).

(** [dls.c = len(classes)]: the number of output channels of the model. *)
Definition dls_c : nat := length classes.

(** ** Exceptions and results *)

(** The exceptions that [train.py] raises or lets through. *)
Inductive exn :=
| Exception (msg : string)
| IndexError (msg : string)
| KeyError (key : string)
| UnboundLocalError (name : string).


(** [needle in hay] on strings. *)
Fixpoint str_contains (needle hay : string) : bool :=
  String.prefix needle hay
  || match hay with
     | EmptyString => false
     | String _ rest => str_contains needle rest
     end.

(** A call either returns a value or raises. *)
Inductive Result (A : Type) :=
| Ok (a : A)
| Err (e : exn).
Arguments Ok {A} a.
Arguments Err {A} e.

Definition rbind {A B} (r : Result A) (k : A -> Result B) : Result B :=
  match r with
  | Ok a => k a
  | Err e => Err e
  end.

Declare Scope result_scope.
Delimit Scope result_scope with result.
Notation "x <- r ;; k" := (rbind r (fun x => k))
  (at level 100, r at next level, right associativity) : result_scope.

(** [if cond: raise e]. *)
Definition raise_if (cond : bool) (e : exn) : Result unit :=
  if cond then Err e else Ok tt.

(** [xs[i]] for [0 <= i]: out of range raises. *)
Definition subscript {A} (what : string) (xs : list A) (i : nat) : Result A :=
  match xs !! i with
  | Some a => Ok a
  | None => Err (IndexError what)
  end.

(** [d[key]] on a dict. *)
Definition getitem {A} (d : gmap string A) (key : string) : Result A :=
  match d !! key with
  | Some a => Ok a
  | None => Err (KeyError key)
  end.

(** ** [check_args] *)

(** The namespace that [parse_args] returns; [--output] and [--data] have no
    default, so they may be [None]. *)
Record Namespace := mkArgs {
  output : option string;
  data : option string;
  batch_size : Z;
  num_epochs : Z;
  seed : Z;
  dist : Z
}.

Section CheckArgs.

(** [os.path.isdir] and [os.path.exists] on the file system of the run. *)
Variable isdir : string -> bool.
Variable path_exists : string -> bool.

Definition check_args (args : Namespace) : Result unit :=
  (_ <- match output args with
        | None => Err (Exception "args.output is not set")
        | Some out =>
            raise_if (negb (isdir out))
              (Exception ("args.output: " +:+ out +:+ " is not a directory"))
        end ;;
   _ <- match data args with
        | None => Err (Exception "args.data is not set")
        | Some d =>
            raise_if (negb (path_exists d))
              (Exception ("args.data: " +:+ d +:+ " does not exist"))
        end ;;
   _ <- raise_if (batch_size args <? 0)%Z
          (Exception ("args.batch_size = " +:+ pretty (batch_size args)
                      +:+ " it must be positive")) ;;
   _ <- raise_if (num_epochs args <? 0)%Z
          (Exception ("args.num_epochs = " +:+ pretty (num_epochs args)
                      +:+ " it must be positive")) ;;
   raise_if (seed args <? 0)%Z
     (Exception ("args.seed = " +:+ pretty (seed args)
                 +:+ " it must be positive")))%result.

End CheckArgs.

(** ** The heatmap decoder

    [utils.py], which holds the decoder, is not among the sources; the
    module [Decoder] follows section 4.2 of the spec step by step. *)

(** A heatmap is indexed [channel][row][column]. *)
Definition Channel : Type := list (list Q).
Definition Heatmap : Type := list Channel.

Record Detection := mkDetection {
  classIndex : nat;
  x : Q;
  y : Q;
  confidence : Q
}.

Module Decoder.

Record Pixel := mkPixel { prow : nat; pcol : nat; pvalue : Q }.

(** Modelled from the spec: the two neighbourhoods that step 2 allows; the
    choice is fixed per run. *)
Inductive Connectivity := Four | Eight.

Definition gap (a b : nat) : nat := (a - b) + (b - a).

Definition adjacent (k : Connectivity) (p q : Pixel) : bool :=
  let dr := gap (prow p) (prow q) in
  let dc := gap (pcol p) (pcol q) in
  match k with
  | Four => Nat.eqb (dr + dc) 1
  | Eight => Nat.eqb (Nat.max dr dc) 1
  end.

(** Modelled from the spec: all pixels of a channel, in raster order. *)
Definition pixels (ch : Channel) : list Pixel :=
  concat (imap (fun r vs => imap (fun c v => mkPixel r c v) vs) ch).

(** Modelled from the spec: step 1, threshold: a pixel is active when its
    value is at least the threshold. *)
Definition is_active (t : Q) (p : Pixel) : bool := Qle_bool t (pvalue p).

Definition active (t : Q) (ch : Channel) : list Pixel :=
  filter (fun p => is_active t p) (pixels ch).

(** Modelled from the spec: step 2, region extraction.  [flood] grows one
    region from the pixels in [todo]: the unvisited neighbours of the first
    one join the region and the work list.  [fuel] bounds the number of
    pixels taken from [todo]; one more than the unvisited pixels is enough
    ([flood_closed]). *)
Fixpoint flood (k : Connectivity) (fuel : nat)
    (todo region unvisited : list Pixel) : list Pixel * list Pixel :=
  match fuel with
  | O => (region, unvisited)
  | S fuel' =>
      match todo with
      | [] => (region, unvisited)
      | p :: todo' =>
          let near := filter (fun q => adjacent k p q) unvisited in
          let far := filter (fun q => ~ adjacent k p q) unvisited in
          flood k fuel' (todo' ++ near) (region ++ near) far
      end
  end.

(** Modelled from the spec: the regions in discovery order: the next region
    starts at the first active pixel, in raster order, that no earlier
    region holds. *)
Fixpoint regions_from (k : Connectivity) (fuel : nat) (act : list Pixel)
  : list (list Pixel) :=
  match fuel with
  | O => []
  | S fuel' =>
      match act with
      | [] => []
      | seed :: rest =>
          let found := flood k (S (length rest)) [seed] [seed] rest in
          found.1 :: regions_from k fuel' found.2
      end
  end.

Definition regions (k : Connectivity) (act : list Pixel) : list (list Pixel) :=
  regions_from k (length act) act.

(** Modelled from the spec: step 3, area filter. *)
Definition survives (minAreaPixels : nat) (region : list Pixel) : bool :=
  Nat.leb minAreaPixels (length region).

(** Modelled from the spec: step 4, centroid (mean column, mean row) and
    peak confidence. *)
Definition mean (ns : list nat) : Q :=
  Qred (inject_Z (Z.of_nat (sum_list ns)) / inject_Z (Z.of_nat (length ns))).

Definition qmax (a b : Q) : Q := if Qle_bool a b then b else a.

Definition peak (region : list Pixel) : Q :=
  match region with
  | [] => 0
  | p :: ps => foldl (fun m q => qmax m (pvalue q)) (pvalue p) ps
  end.

(** Modelled from the spec: step 5, the class index is the channel index. *)
Definition detection_of (c : nat) (region : list Pixel) : Detection :=
  mkDetection c (mean (pcol <$> region)) (mean (prow <$> region)) (peak region).

Definition decode_channel (k : Connectivity) (scoreThreshold : Q)
    (minAreaPixels : nat) (c : nat) (ch : Channel) : list Detection :=
  detection_of c
    <$> filter (fun r => survives minAreaPixels r)
          (regions k (active scoreThreshold ch)).

(** Modelled from the spec: [decode] of section 4.2, which [utils] holds
    and [src/] does not: per channel, threshold, connected regions, area
    filter, centroid and peak; channels in ascending order. *)
Definition decode (k : Connectivity) (heatmap : Heatmap) (scoreThreshold : Q)
    (minAreaPixels : nat) : list Detection :=
  concat (imap (decode_channel k scoreThreshold minAreaPixels) heatmap).

(** [decode] from channel [n] on: [decode] is [decode_from] at 0. *)
Definition decode_from (k : Connectivity) (scoreThreshold : Q)
    (minAreaPixels : nat) (n : nat) (heatmap : Heatmap) : list Detection :=
  concat (imap (fun i => decode_channel k scoreThreshold minAreaPixels (n + i)%nat)
               heatmap).

End Decoder.

(** ** The helpers of [utils] *)

Module Utils.

(** Modelled from the spec: [extract_predictions] of [utils], called as
    [pred_points, lbl_points = extract_predictions(lbl, pred, score_thresh,
    min_area)]: both heatmaps are decoded independently with the same
    thresholds. *)
Definition extract_predictions (k : Decoder.Connectivity) (lbl pred : Heatmap)
    (score_thresh : Q) (min_area : nat)
  : Result (list Detection * list Detection) :=
  Ok (Decoder.decode k pred score_thresh min_area,
      Decoder.decode k lbl score_thresh min_area).

(** Modelled from the spec: [classes2name] of [utils]: each detection's
    class index is looked up as a position in the canonical class ordering
    and gives the display name found there. *)
Fixpoint classes2name (points : list Detection) (cls : list CanonicalClass)
  : Result (list string) :=
  match points with
  | [] => Ok []
  | d :: rest =>
      (c <- subscript "list index out of range" cls (classIndex d) ;;
       names <- classes2name rest cls ;;
       Ok (displayName c :: names))%result
  end.

End Utils.

(** ** The evaluation pass of [main] (from [start = time.time()] to the
    final [logging.info]) *)

(** The one record the pass logs:
    ['time to predict {} tiles: {} seconds'.format(idx+1, end-start)]. *)
Inductive LogRecord := TimeToPredict (tiles : nat) (seconds : Q).

(** What the pass reads and writes outside its locals: the wall clock, as
    the readings successive calls of [time.time()] get, and the log. *)
Record World := mkWorld {
  wall : nat -> Q;
  ticks : nat;
  logged : list LogRecord
}.

Inductive Outcome (A : Type) :=
| Returned (a : A) (w : World)
| Raised (e : exn) (w : World).
Arguments Returned {A} a w.
Arguments Raised {A} e w.

Definition M (A : Type) : Type := World -> Outcome A.

Definition mret {A} (a : A) : M A := fun w => Returned a w.

Definition mbind {A B} (m : M A) (k : A -> M B) : M B :=
  fun w =>
    match m w with
    | Returned a w' => k a w'
    | Raised e w' => Raised e w'
    end.

Definition lift {A} (r : Result A) : M A :=
  fun w =>
    match r with
    | Ok a => Returned a w
    | Err e => Raised e w
    end.

Declare Scope run_scope.
Delimit Scope run_scope with run.
Notation "x <- m ;; k" := (mbind m (fun x => k))
  (at level 100, m at next level, right associativity) : run_scope.

(** [time.time()]. *)
Definition time_time : M Q :=
  fun w => Returned (wall w (ticks w)) (mkWorld (wall w) (S (ticks w)) (logged w)).

(** [logging.info(...)]. *)
Definition logging_info (r : LogRecord) : M unit :=
  fun w => Returned tt (mkWorld (wall w) (ticks w) (logged w ++ [r])).

(** A row: the target names, the predicted names, then the file name. *)
Definition Row : Type := list string.

(** The locals of [main] that the loop writes; [idx] is unbound until the
    first iteration binds it. *)
Record Locals := mkLocals {
  ho_results : list Row;
  idx : option nat
}.

Module Main.
Section Evaluation.

(** The helpers imported from [utils], whatever they are. *)
Context {Points : Type}.
Variable extract_predictions :
  Heatmap -> Heatmap -> Q -> nat -> Result (Points * Points).
Variable classes2name : Points -> list CanonicalClass -> Result (list string).

(** What [learn.get_preds], [ho_dls.decode_batch] and [load_labels] gave. *)
Context {Inp : Type}.
Variable preds lbls : list Heatmap.
Variable ho_out : list (Inp * Inp).
Variable holdout_lbls : list (gmap string string).

(** [preds[idx]] on a numpy array. *)
Definition ndarray_item (a : list Heatmap) (i : nat) : Result Heatmap :=
  subscript ("index " +:+ pretty i +:+ " is out of bounds for axis 0 with size "
             +:+ pretty (length a)) a i.

(** The keyword arguments of the call: [score_thresh=0.1], the double
    nearest to one tenth, and [min_area=4]. *)
Definition score_thresh : Q := 3602879701896397 # 36028797018963968.
Definition min_area : nat := 4.

(** Lines 197 to 200: the two lists of names of a tile. *)
Definition tile_names (lbl pred : Heatmap) : Result (list string * list string) :=
  (points <- extract_predictions lbl pred score_thresh min_area ;;
   let pred_points := points.1 in
   let lbl_points := points.2 in
   target <- classes2name lbl_points classes ;;
   prediction <- classes2name pred_points classes ;;
   Ok (target, prediction))%result.

(** The body of the [for] loop at [idx = i]; it returns the new value of
    [ho_results]. *)
Definition loop_body (i : nat) (results : list Row) : Result (list Row) :=
  (_ <- subscript "list index out of range" ho_out i ;;
   pred <- ndarray_item preds i ;;
   lbl <- ndarray_item lbls i ;;
   names <- tile_names lbl pred ;;
   let target := names.1 in
   let prediction := names.2 in
   label <- subscript "list index out of range" holdout_lbls i ;;
   fname <- getitem label "External ID" ;;
   let row := target ++ prediction in
   let row := row ++ [fname] in
   Ok (results ++ [row]))%result.

(** [for idx in range(...)]: each iteration binds [idx], then runs the
    body; a raise leaves the loop at once. *)
Fixpoint for_range (indices : list nat) (locals : Locals) : Result Locals :=
  match indices with
  | [] => Ok locals
  | i :: later =>
      (results <- loop_body i (ho_results locals) ;;
       for_range later (mkLocals results (Some i)))%result
  end.

(** Reading the local [idx] after the loop. *)
Definition load_idx (locals : Locals) : Result nat :=
  match idx locals with
  | Some i => Ok i
  | None => Err (UnboundLocalError "idx")
  end.

(** Lines 186 to 213.  [main] returns nothing; the value here is what the
    pass has made when it ends: [ho_results] and [end - start].  The call
    [cleanup()] between the second reading of the clock and the log line
    releases the process group and touches none of this; it is left out. *)
Definition evaluation : M (list Row * Q) :=
  (start <- time_time ;;
   locals <- lift (for_range (seq 0 (length holdout_lbls)) (mkLocals [] None)) ;;
   end_ <- time_time ;;
   i <- lift (load_idx locals) ;;
   _ <- logging_info (TimeToPredict (i + 1) (end_ - start)) ;;
   mret (ho_results locals, end_ - start))%run.

End Evaluation.
End Main.

(** One tile of the holdout set as the spec sees it: ground truth,
    prediction, file name. *)
Definition Tile : Type := Heatmap * Heatmap * string.

Definition tile_truth (t : Tile) : Heatmap := t.1.1.
Definition tile_pred (t : Tile) : Heatmap := t.1.2.
Definition tile_file (t : Tile) : string := t.2.

(** The label record of a tile: a dict with the key ['External ID']. *)
Definition label_of (file : string) : gmap string string :=
  {[ "External ID"%string := file ]}.

(** ** Notions used to state the properties *)

(** [a < b] on class tuples, as a relation. *)
Definition class_lt (a b : CanonicalClass) : Prop := Py.class_ltb a b = true.

(** Two class tuples describe the same class: display name, colour and
    radius agree under [==]. *)
Definition same_class (a b : CanonicalClass) : bool :=
  Py.str_eqb (displayName a) (displayName b)
  && Py.color_eqb (classColor a) (classColor b)
  && Py.num_eqb (expectedRadiusFraction a) (expectedRadiusFraction b).

(** The scenario of the spec: 4 by 4, channel 0 all zero, channel 1 zero
    but for a 2 by 2 block of 0.9 whose top left pixel is at row [r0],
    column [c0]. *)
Definition scenario_zero : Channel := replicate 4 (replicate 4 0).

Definition scenario_block (r0 c0 : nat) : Channel :=
  imap (fun r vs =>
          imap (fun c (_ : Q) =>
                  if (Nat.leb r0 r && Nat.leb r (r0 + 1)
                      && Nat.leb c0 c && Nat.leb c (c0 + 1))%bool
                  then 9 # 10 else 0) vs)
       scenario_zero.

Definition scenario (r0 c0 : nat) : Heatmap := [scenario_zero; scenario_block r0 c0].

(** The detections that [decode] emits for channel [c]. *)
Definition detections_of_channel (k : Decoder.Connectivity) (h : Heatmap)
    (t : Q) (m : nat) (c : nat) : list Detection :=
  filter (fun d => classIndex d = c) (Decoder.decode k h t m).

(** Two pixels of a region are linked when they are neighbours; a region is
    connected when links lead from one of its pixels to every other. *)
Definition linked (k : Decoder.Connectivity) (region : list Decoder.Pixel)
    (p q : Decoder.Pixel) : Prop :=
  p ∈ region /\ q ∈ region /\ Decoder.adjacent k p q = true.

(** A channel with two blobs joined by a faint bridge. *)
Definition bridged : Heatmap := [[[9 # 10; 9 # 10; 3 # 10; 9 # 10; 9 # 10]]].

(** The display name that the canonical class ordering gives a detection. *)
Definition named (d : Detection) (name : string) : Prop :=
  displayName <$> classes !! classIndex d = Some name.

Definition preds_of (tiles : list Tile) : list Heatmap := tile_pred <$> tiles.
Definition lbls_of (tiles : list Tile) : list Heatmap := tile_truth <$> tiles.
Definition labels_of (tiles : list Tile) : list (gmap string string) :=
  (fun t => label_of (tile_file t)) <$> tiles.

(** The value of [idx] after [for idx in range(start, start + n)]. *)
Definition idx_after (start n : nat) (before : option nat) : option nat :=
  match n with
  | O => before
  | S n' => Some (start + n')%nat
  end.

Section RowsOf.

Context {Points : Type}.
Variable extract_predictions :
  Heatmap -> Heatmap -> Q -> nat -> Result (Points * Points).
Variable classes2name : Points -> list CanonicalClass -> Result (list string).

(** The row of one tile, as the loop body builds it. *)
Definition row_of (t : Tile) : Result Row :=
  (names <- Main.tile_names extract_predictions classes2name
              (tile_truth t) (tile_pred t) ;;
   Ok ((names.1 ++ names.2) ++ [tile_file t]))%result.

(** The rows of a sequence of tiles, one per tile, in order; the first
    tile that raises ends it. *)
Fixpoint rows_of (tiles : list Tile) : Result (list Row) :=
  match tiles with
  | [] => Ok []
  | t :: rest =>
      (row <- row_of t ;;
       rows <- rows_of rest ;;
       Ok (row :: rows))%result
  end.

(** The pass over a sequence of tiles. *)
Definition run_pass {Inp : Type} (ho_out : list (Inp * Inp)) (tiles : list Tile)
  : M (list Row * Q) :=
  Main.evaluation extract_predictions classes2name
    (preds_of tiles) (lbls_of tiles) ho_out (labels_of tiles).

End RowsOf.

(** A ground truth with a cell in a fifth channel, one more than there are
    canonical classes. *)
Definition five_channels : Heatmap :=
  [scenario_zero; scenario_zero; scenario_zero; scenario_zero; scenario_block 1 1].

Definition clock0 : World := mkWorld (fun n => inject_Z (Z.of_nat n)) 0 [].

(** ** Further notions: the class table at large *)

(** Line 137 for any label table: [sorted(set(table.values()))]. *)
Definition classes_of (table : gmap string CanonicalClass) : list CanonicalClass :=
  Py.sorted (Py.set (map_to_list table).*2).

(** No two elements of a list are [==]. *)
Fixpoint pairwise_distinct (l : list CanonicalClass) : Prop :=
  match l with
  | [] => True
  | a :: rest =>
      Forall (fun b => Py.class_eqb a b = false) rest /\ pairwise_distinct rest
  end.

(** [not (b < a)]: [a] may stand before [b] in ascending order. *)
Definition class_not_after (a b : CanonicalClass) : Prop :=
  Py.class_ltb b a = false.

(** The value of [idx] after a loop over [indices]. *)
Definition idx_after_loop (indices : list nat) (before : option nat) : option nat :=
  match last indices with
  | Some i => Some i
  | None => before
  end.

(** A holdout set of two tiles for examples: a cell of class 0 in the
    ground truth and one of class 1 in the prediction, then the reverse. *)
Definition demo_lbls : list Heatmap :=
  [[scenario_block 0 0; scenario_zero]; [scenario_zero; scenario_block 1 1]].
Definition demo_preds : list Heatmap :=
  [[scenario_zero; scenario_block 1 1]; [scenario_block 0 0; scenario_zero]].
Definition demo_out : list (unit * unit) := [(tt, tt); (tt, tt)].
Definition demo_labels : list (gmap string string) :=
  [label_of "tile_a.png"; label_of "tile_b.png"].
Definition demo_rows : list Row :=
  [["Eosinophil"; "Lymphocyte"; "tile_a.png"]%string;
   ["Lymphocyte"; "Eosinophil"; "tile_b.png"]%string].

(** * Properties *)

(** ** The class registry *)

Lemma classes_value :
  classes =
    [ mkClass 0 "Eosinophil" Eosinophil (61 # 1024);
      mkClass 1 "Lymphocyte" Lymphocyte (15 # 512);
      mkClass 2 "Macro+Mono" MacroMono (19 # 256);
      mkClass 3 "Neutrophil" Neutrophil (13 # 256) ].
Proof. vm_compute. reflexivity. Qed.

Lemma class_map_keys_NoDup : NoDup class_map_items.*1.
Proof.
  cbn. repeat (apply NoDup_cons; split; [ | ]);
    try apply NoDup_nil_2; rewrite ?elem_of_cons, elem_of_nil;
    intros H; decompose [or] H; discriminate || contradiction.
Qed.

Lemma resolve_items raw c :
  resolve raw = Some c <-> (raw, c) ∈ class_map_items.
Proof.
  unfold resolve, class_map. symmetry.
  apply elem_of_list_to_map, class_map_keys_NoDup.
Qed.

(** A registered tuple is one of the five written in [class_map]. *)
Lemma resolve_cases raw c :
  resolve raw = Some c ->
  (raw, c) = ("Eosinophil"%string, mkClass 0 "Eosinophil" Eosinophil (61 # 1024))
  \/ (raw, c) = ("Lymphocyte"%string, mkClass 1 "Lymphocyte" Lymphocyte (15 # 512))
  \/ (raw, c) = ("Macrophage"%string, mkClass 2 "Macro+Mono" MacroMono (19 # 256))
  \/ (raw, c) = ("Monocyte"%string, mkClass 2 "Macro+Mono" MacroMono (19 # 256))
  \/ (raw, c) = ("Neutrophil"%string, mkClass 3 "Neutrophil" Neutrophil (13 # 256)).
Proof.
  rewrite resolve_items. unfold class_map_items.
  rewrite !elem_of_cons, elem_of_nil. tauto.
Qed.

Ltac registered H :=
  apply resolve_cases in H;
  destruct H as [H | [H | [H | [H | H]]]]; inversion H; subst; clear H.

Lemma classes_ascending : StronglySorted class_lt classes.
Proof.
  rewrite classes_value. unfold class_lt.
  repeat (apply SSorted_cons;
          [ | repeat (apply Forall_cons; split; [vm_compute; reflexivity | ]);
              apply Forall_nil_2 ]).
  apply SSorted_nil.
Qed.

Lemma sorted_set_any_order (l : list CanonicalClass) :
  l ≡ₚ Py.set class_map_values -> Py.sorted l = classes.
Proof.
  intros H. symmetry in H. apply permutations_Permutation in H.
  set (ps := permutations _) in H. vm_compute in ps. subst ps.
  repeat (apply elem_of_cons in H as [-> | H]; [vm_compute; reflexivity | ]).
  by apply elem_of_nil in H.
Qed.

(** C1.  Raw labels that map to the same tuple resolve to one canonical
    class: ['Macrophage'] and ['Monocyte'] resolve to the same tuple; the
    canonical classes are exactly the registered tuples, without duplicates
    under [==], in strictly ascending order, whatever order the set is
    iterated in; and two raw labels whose display name, colour and radius
    agree have the same index, hence the same tuple and the same position. *)
Theorem registry_canonicalization :
  resolve "Macrophage" = resolve "Monocyte"
  /\ resolve "Macrophage" = Some (mkClass 2 "Macro+Mono" MacroMono (19 # 256))
  /\ (forall c, c ∈ classes <-> exists raw, resolve raw = Some c)
  /\ (forall i j a b, classes !! i = Some a -> classes !! j = Some b ->
        Py.class_eqb a b = true -> i = j)
  /\ StronglySorted class_lt classes
  /\ (forall l, l ≡ₚ Py.set class_map_values -> Py.sorted l = classes)
  /\ (forall r1 r2 c1 c2,
        resolve r1 = Some c1 -> resolve r2 = Some c2 ->
        same_class c1 c2 = true ->
        index c1 = index c2 /\ c1 = c2
        /\ exists i, classes !! i = Some c1 /\ classes !! i = Some c2)
  /\ (forall r1 r2 c1 c2,
        resolve r1 = Some c1 -> resolve r2 = Some c2 ->
        index c1 = index c2 -> same_class c1 c2 = true).
Proof.
  split; [vm_compute; reflexivity | ].
  split; [vm_compute; reflexivity | ].
  split.
  { intros c. rewrite classes_value. split.
    - rewrite !elem_of_cons, elem_of_nil.
      intros [-> | [-> | [-> | [-> | []]]]];
        [ exists "Eosinophil"%string | exists "Lymphocyte"%string
        | exists "Monocyte"%string | exists "Neutrophil"%string ];
        vm_compute; reflexivity.
    - intros [raw H]. registered H;
        rewrite !elem_of_cons; tauto. }
  split.
  { rewrite classes_value. intros i j a b Hi Hj Heq.
    destruct i as [ | [ | [ | [ | i]]]]; try discriminate Hi;
      destruct j as [ | [ | [ | [ | j]]]]; try discriminate Hj;
      cbn in Hi, Hj; inversion Hi; inversion Hj; subst;
      try reflexivity; vm_compute in Heq; discriminate Heq. }
  split; [exact classes_ascending | ].
  split; [exact sorted_set_any_order | ].
  split.
  { intros r1 r2 c1 c2 H1 H2 Hs. rewrite classes_value.
    registered H1; registered H2; try (vm_compute in Hs; discriminate Hs);
      (split; [reflexivity | split; [reflexivity | ]]);
      [ exists 0%nat | exists 1%nat | exists 2%nat | exists 2%nat
      | exists 2%nat | exists 2%nat | exists 3%nat ]; split; reflexivity. }
  intros r1 r2 c1 c2 H1 H2 Hi.
  registered H1; registered H2; try (cbn in Hi; discriminate Hi);
    vm_compute; reflexivity.
Qed.

(** The synonyms of the source, through C1. *)
Lemma registry_canonicalization_witness :
  same_class (mkClass 2 "Macro+Mono" MacroMono (19 # 256))
             (mkClass 2 "Macro+Mono" MacroMono (19 # 256)) = true
  /\ exists i, classes !! i = Some (mkClass 2 "Macro+Mono" MacroMono (19 # 256)).
Proof.
  split; [vm_compute; reflexivity | ].
  destruct registry_canonicalization as (_ & _ & _ & _ & _ & _ & H & _).
  destruct (H "Macrophage"%string "Monocyte"%string
              (mkClass 2 "Macro+Mono" MacroMono (19 # 256))
              (mkClass 2 "Macro+Mono" MacroMono (19 # 256)))
    as (_ & _ & i & Hi & _);
    [vm_compute; reflexivity | vm_compute; reflexivity | vm_compute; reflexivity | ].
  exists i. exact Hi.
Defined.

(** C4.  [classes] is in ascending order of the tuple [(index, displayName,
    color, expectedRadiusFraction)], and the number of output channels
    [dls.c] is the number of canonical classes: four, for the five raw
    labels registered. *)
Theorem classes_sorted_and_channel_count :
  StronglySorted class_lt classes
  /\ dls_c = length classes
  /\ length classes = 4%nat
  /\ size class_map = 5%nat.
Proof.
  split; [exact classes_ascending | ].
  split; [reflexivity | ].
  split; vm_compute; reflexivity.
Qed.

(** C9.  In [classes] the element at position [i] has index [i], the
    indices are 0, 1, 2, 3, and the position given by the index of a
    registered class holds that very class, so its display name. *)
Theorem classes_position_is_index :
  (forall i c, classes !! i = Some c -> index c = i)
  /\ index <$> classes = [0; 1; 2; 3]%nat
  /\ (forall raw c, resolve raw = Some c ->
        classes !! index c = Some c
        /\ displayName <$> classes !! index c = Some (displayName c)).
Proof.
  split.
  { rewrite classes_value. intros i c Hi.
    destruct i as [ | [ | [ | [ | i]]]]; try discriminate Hi;
      cbn in Hi; inversion Hi; reflexivity. }
  split; [vm_compute; reflexivity | ].
  intros raw c H. rewrite classes_value. registered H; split; reflexivity.
Qed.

Lemma classes_position_is_index_witness :
  classes !! 2%nat = Some (mkClass 2 "Macro+Mono" MacroMono (19 # 256))
  /\ index (mkClass 2 "Macro+Mono" MacroMono (19 # 256)) = 2%nat.
Proof.
  split; [vm_compute; reflexivity | ].
  apply (proj1 classes_position_is_index). vm_compute; reflexivity.
Defined.

(** ** [check_args] *)

Lemma str_contains_app_r needle a b :
  str_contains needle b = true -> str_contains needle (a +:+ b) = true.
Proof.
  intros H. induction a as [ | ch a IH]; [exact H | ].
  change (String.prefix needle (String ch (a +:+ b))
          || str_contains needle (a +:+ b) = true).
  rewrite IH. apply orb_true_r.
Qed.

Lemma must_be_positive_message a n :
  str_contains "it must be positive" (a +:+ n +:+ " it must be positive") = true.
Proof. do 2 apply str_contains_app_r. reflexivity. Qed.

Section CheckArgsFacts.

Variable isdir : string -> bool.
Variable path_exists : string -> bool.

Lemma check_args_numbers args o d :
  output args = Some o -> isdir o = true ->
  data args = Some d -> path_exists d = true ->
  check_args isdir path_exists args =
    (_ <- raise_if (batch_size args <? 0)%Z
            (Exception ("args.batch_size = " +:+ pretty (batch_size args)
                        +:+ " it must be positive")) ;;
     _ <- raise_if (num_epochs args <? 0)%Z
            (Exception ("args.num_epochs = " +:+ pretty (num_epochs args)
                        +:+ " it must be positive")) ;;
     raise_if (seed args <? 0)%Z
       (Exception ("args.seed = " +:+ pretty (seed args)
                   +:+ " it must be positive")))%result.
Proof.
  intros Ho Hdir Hd Hex. unfold check_args.
  rewrite Ho, Hd, Hdir, Hex. reflexivity.
Qed.

Lemma check_args_negative_raises args :
  (batch_size args < 0 \/ num_epochs args < 0 \/ seed args < 0)%Z ->
  exists e, check_args isdir path_exists args = Err e.
Proof.
  intros Hneg. unfold check_args.
  destruct (output args) as [o | ]; [ | eexists; reflexivity].
  destruct (isdir o); [ | eexists; reflexivity].
  destruct (data args) as [d | ]; [ | eexists; reflexivity].
  destruct (path_exists d); [ | eexists; reflexivity].
  cbn.
  destruct (Z.ltb_spec (batch_size args) 0); [eexists; reflexivity | ].
  destruct (Z.ltb_spec (num_epochs args) 0); [eexists; reflexivity | ].
  destruct (Z.ltb_spec (seed args) 0); [eexists; reflexivity | ].
  lia.
Qed.

End CheckArgsFacts.

(** C10.  [check_args] raises when [batch_size], [num_epochs] or [seed] is
    strictly negative; when the two paths pass their checks the error then
    raised says the value must be positive; and with the two paths passing
    and the three numbers all 0 it returns normally. *)
Theorem check_args_accepts_zero (isdir path_exists : string -> bool) :
  (forall args,
     (batch_size args < 0 \/ num_epochs args < 0 \/ seed args < 0)%Z ->
     exists e, check_args isdir path_exists args = Err e)
  /\ (forall args o d,
        output args = Some o -> isdir o = true ->
        data args = Some d -> path_exists d = true ->
        (batch_size args < 0 \/ num_epochs args < 0 \/ seed args < 0)%Z ->
        exists msg,
          check_args isdir path_exists args = Err (Exception msg)
          /\ str_contains "it must be positive" msg = true)
  /\ (forall args o d,
        output args = Some o -> isdir o = true ->
        data args = Some d -> path_exists d = true ->
        batch_size args = 0%Z -> num_epochs args = 0%Z -> seed args = 0%Z ->
        check_args isdir path_exists args = Ok tt).
Proof.
  split; [apply check_args_negative_raises | ].
  split.
  - intros args o d Ho Hdir Hd Hex Hneg.
    rewrite (check_args_numbers _ _ args o d Ho Hdir Hd Hex).
    destruct (Z.ltb_spec (batch_size args) 0) as [Hb | Hb].
    { eexists. split; [reflexivity | apply must_be_positive_message]. }
    destruct (Z.ltb_spec (num_epochs args) 0) as [Hn | Hn].
    { eexists. split; [reflexivity | apply must_be_positive_message]. }
    destruct (Z.ltb_spec (seed args) 0) as [Hs | Hs].
    { eexists. split; [reflexivity | apply must_be_positive_message]. }
    lia.
  - intros args o d Ho Hdir Hd Hex Hb Hn Hs.
    rewrite (check_args_numbers _ _ args o d Ho Hdir Hd Hex).
    rewrite Hb, Hn, Hs. reflexivity.
Qed.

(** A run with [--output /out --data /in --batch-size 0 --num-epochs 0
    --seed 0] on a file system that has both paths. *)
Lemma check_args_accepts_zero_witness :
  check_args (String.eqb "/out") (String.eqb "/in")
    (mkArgs (Some "/out") (Some "/in") 0 0 0 0) = Ok tt
  /\ exists e,
       check_args (String.eqb "/out") (String.eqb "/in")
         (mkArgs (Some "/out") (Some "/in") 2 (-1) 42 0) = Err e.
Proof.
  destruct (check_args_accepts_zero (String.eqb "/out") (String.eqb "/in"))
    as (Hneg & _ & Hzero).
  split.
  - apply (Hzero _ "/out"%string "/in"%string); reflexivity.
  - apply Hneg. cbn. lia.
Defined.

(** ** The heatmap decoder *)

Module DecoderFacts.
Import Decoder.
Local Open Scope nat_scope.

Section Regions.

Variable k : Connectivity.

Lemma flood_partition fuel todo region unvisited :
  (flood k fuel todo region unvisited).1 ++ (flood k fuel todo region unvisited).2
  ≡ₚ region ++ unvisited.
Proof.
  revert todo region unvisited.
  induction fuel as [ | fuel IH]; intros todo region unvisited; [reflexivity | ].
  destruct todo as [ | p todo]; [reflexivity | ]. cbn [flood].
  rewrite IH, <- (assoc_L (++)).
  by rewrite filter_app_complement.
Qed.

Lemma flood_rest_sublist fuel todo region unvisited :
  (flood k fuel todo region unvisited).2 `sublist_of` unvisited.
Proof.
  revert todo region unvisited.
  induction fuel as [ | fuel IH]; intros todo region unvisited; [reflexivity | ].
  destruct todo as [ | p todo]; [reflexivity | ]. cbn [flood].
  etrans; [apply IH | apply sublist_filter].
Qed.

Lemma flood_extends fuel todo region unvisited :
  exists more, (flood k fuel todo region unvisited).1 = region ++ more.
Proof.
  revert todo region unvisited.
  induction fuel as [ | fuel IH]; intros todo region unvisited;
    [exists []; cbn; by rewrite app_nil_r | ].
  destruct todo as [ | p todo]; [exists []; cbn; by rewrite app_nil_r | ].
  cbn [flood]. destruct (IH (todo ++ filter (fun q => adjacent k p q) unvisited)
      (region ++ filter (fun q => adjacent k p q) unvisited)
      (filter (fun q => ~ adjacent k p q) unvisited)) as [more ->].
  eexists. by rewrite <- (assoc_L (++)).
Qed.

(** The regions are a partition of the active pixels. *)
Lemma regions_from_partition fuel act :
  length act <= fuel -> concat (regions_from k fuel act) ≡ₚ act.
Proof.
  revert act. induction fuel as [ | fuel IH]; intros act Hlen.
  - destruct act; [reflexivity | cbn in Hlen; lia].
  - destruct act as [ | seed rest]; [reflexivity | ].
    cbn [regions_from concat]. rewrite IH.
    + rewrite flood_partition. reflexivity.
    + cbn in Hlen.
      pose proof (sublist_length _ _
        (flood_rest_sublist (S (length rest)) [seed] [seed] rest)). lia.
Qed.

Lemma regions_partition act : concat (regions k act) ≡ₚ act.
Proof. by apply regions_from_partition. Qed.

(** Discovery order: the first pixels of the regions come in the order of
    the scan, and every region starts with the pixel that opened it. *)
Lemma regions_from_seeds fuel act :
  omap head (regions_from k fuel act) `sublist_of` act.
Proof.
  revert act. induction fuel as [ | fuel IH]; intros act;
    [apply sublist_nil_l | ].
  destruct act as [ | seed rest]; [reflexivity | ].
  cbn [regions_from].
  pose proof (flood_rest_sublist (S (length rest)) [seed] [seed] rest) as Hrest.
  destruct (flood_extends (S (length rest)) [seed] [seed] rest) as [more Hmore].
  destruct (flood k (S (length rest)) [seed] [seed] rest) as [region rest'].
  cbn [fst snd] in *. subst region. cbn. apply sublist_skip.
  etrans; [apply IH | exact Hrest].
Qed.

Lemma regions_from_nonempty fuel act :
  Forall (fun r => r <> []) (regions_from k fuel act).
Proof.
  revert act. induction fuel as [ | fuel IH]; intros act; [constructor | ].
  destruct act as [ | seed rest]; [constructor | ].
  cbn [regions_from]. constructor; [ | apply IH].
  destruct (flood_extends (S (length rest)) [seed] [seed] rest) as [more Hmore].
  rewrite Hmore. discriminate.
Qed.

Lemma survivors_area m (rs : list (list Pixel)) :
  m * length (filter (fun r => survives m r) rs) <= length (concat rs).
Proof.
  induction rs as [ | r rs IH]; [cbn; lia | ].
  rewrite filter_cons. cbn [concat]. rewrite length_app.
  case_decide as Hs; [ | lia].
  unfold survives in Hs. apply Is_true_true, Nat.leb_le in Hs.
  cbn [length]. lia.
Qed.

Lemma decode_channel_area t m c ch :
  m * length (decode_channel k t m c ch) <= length (active t ch).
Proof.
  unfold decode_channel. rewrite length_fmap.
  etrans; [apply survivors_area | ].
  by rewrite regions_partition.
Qed.

End Regions.

Section Components.

Variable k : Connectivity.

Lemma adjacent_sym p q : adjacent k p q = adjacent k q p.
Proof. unfold adjacent, gap. destruct k; f_equal; lia. Qed.

Lemma elem_of_concat {A} (x : A) (ls : list (list A)) :
  x ∈ concat ls <-> exists l, l ∈ ls /\ x ∈ l.
Proof.
  induction ls as [ | l ls IH]; cbn.
  - split; [intros H; by apply elem_of_nil in H | ].
    intros (l & H & _). by apply elem_of_nil in H.
  - rewrite elem_of_app, IH. split.
    + intros [H | (l' & H1 & H2)].
      * exists l. split; [apply list_elem_of_here | exact H].
      * exists l'. split; [by apply list_elem_of_further | exact H2].
    + intros (l' & H1 & H2). apply elem_of_cons in H1 as [-> | H1]; [by left | ].
      right. by exists l'.
Qed.

Lemma filter_split_length {A} (P : A -> Prop) `{!forall a, Decision (P a)}
    (l : list A) :
  length (filter P l) + length (filter (fun a => ~ P a) l) = length l.
Proof. by rewrite <- length_app, filter_app_complement. Qed.

Lemma linked_mono (small large : list Pixel) p q :
  (forall a, a ∈ small -> a ∈ large) -> linked k small p q -> linked k large p q.
Proof. intros Hsub (Hp & Hq & Hadj). repeat split; auto. Qed.

(** With fuel for every pixel, [flood] stops only when no pixel of the
    region has a neighbour among the pixels it leaves. *)
Lemma flood_closed fuel todo region unvisited :
  length todo + length unvisited <= fuel ->
  (forall a, a ∈ region ->
     a ∈ todo \/ forall b, b ∈ unvisited -> adjacent k a b = false) ->
  forall a b,
    a ∈ (flood k fuel todo region unvisited).1 ->
    b ∈ (flood k fuel todo region unvisited).2 ->
    adjacent k a b = false.
Proof.
  revert todo region unvisited.
  induction fuel as [ | fuel IH]; intros todo region unvisited Hfuel Hinv a b.
  - destruct todo; [ | cbn in Hfuel; lia].
    destruct unvisited; [ | cbn in Hfuel; lia].
    cbn. intros _ Hb. by apply elem_of_nil in Hb.
  - destruct todo as [ | p todo].
    + cbn. intros Ha Hb. destruct (Hinv a Ha) as [Hin | Hfar]; [ | by apply Hfar].
      by apply elem_of_nil in Hin.
    + cbn [flood]. apply IH.
      * rewrite length_app. cbn in Hfuel.
        pose proof (filter_split_length (fun q => adjacent k p q) unvisited). lia.
      * intros a' Ha'. apply elem_of_app in Ha' as [Ha' | Ha'].
        -- destruct (Hinv a' Ha') as [Hin | Hfar].
           ++ apply elem_of_cons in Hin as [-> | Hin].
              ** right. intros b' Hb'. apply list_elem_of_filter in Hb' as [Hb' _].
                 by destruct (adjacent k p b').
              ** left. apply elem_of_app. by left.
           ++ right. intros b' Hb'. apply list_elem_of_filter in Hb' as [_ Hb'].
              by apply Hfar.
        -- left. apply elem_of_app. by right.
Qed.

(** Every pixel of the region that [flood] returns is reached from the
    seed by links inside that region. *)
Lemma flood_connected s fuel todo region unvisited :
  (forall a, a ∈ todo -> a ∈ region) ->
  (forall a, a ∈ region -> rtc (linked k region) s a) ->
  forall a,
    a ∈ (flood k fuel todo region unvisited).1 ->
    rtc (linked k (flood k fuel todo region unvisited).1) s a.
Proof.
  revert todo region unvisited.
  induction fuel as [ | fuel IH]; intros todo region unvisited Htodo Hinv;
    [exact Hinv | ].
  destruct todo as [ | p todo]; [exact Hinv | ].
  cbn [flood]. apply IH.
  - intros a Ha. apply elem_of_app. apply elem_of_app in Ha as [Ha | Ha].
    + left. apply Htodo. by apply list_elem_of_further.
    + by right.
  - assert (Hp : p ∈ region) by (apply Htodo; apply list_elem_of_here).
    assert (Hgrow : forall a, rtc (linked k region) s a ->
              rtc (linked k (region ++ filter (fun q => adjacent k p q) unvisited)) s a).
    { intros a. apply rtc_subrel. intros u v. apply linked_mono.
      intros c Hc. apply elem_of_app. by left. }
    intros a Ha. apply elem_of_app in Ha as [Ha | Ha]; [by apply Hgrow, Hinv | ].
    eapply rtc_r; [apply Hgrow, Hinv, Hp | ].
    repeat split.
    + apply elem_of_app. by left.
    + apply elem_of_app. by right.
    + apply list_elem_of_filter in Ha as [Ha _]. by apply Is_true_true.
Qed.

Lemma regions_from_subset fuel act region a :
  length act <= fuel ->
  region ∈ regions_from k fuel act -> a ∈ region -> a ∈ act.
Proof.
  intros Hfuel Hr Ha. rewrite <- (regions_from_partition k fuel act Hfuel).
  apply elem_of_concat. by exists region.
Qed.

Lemma regions_from_cover fuel act a :
  length act <= fuel ->
  a ∈ act -> exists region, region ∈ regions_from k fuel act /\ a ∈ region.
Proof.
  intros Hfuel Ha. rewrite <- (regions_from_partition k fuel act Hfuel) in Ha.
  by apply elem_of_concat in Ha.
Qed.

(** Regions are maximal: an active neighbour of a pixel of a region is in
    that region. *)
Lemma regions_from_closed fuel act :
  length act <= fuel ->
  forall region a b,
    region ∈ regions_from k fuel act ->
    a ∈ region -> b ∈ act -> adjacent k a b = true -> b ∈ region.
Proof.
  revert act. induction fuel as [ | fuel IH]; intros act Hfuel region a b Hr.
  - by apply elem_of_nil in Hr.
  - destruct act as [ | seed rest]; [by apply elem_of_nil in Hr | ].
    cbn [regions_from] in Hr.
    pose proof (flood_partition k (S (length rest)) [seed] [seed] rest) as Hpart.
    pose proof (sublist_length _ _
      (flood_rest_sublist k (S (length rest)) [seed] [seed] rest)) as Hshrink.
    assert (Hclosed : forall a b,
              a ∈ (flood k (S (length rest)) [seed] [seed] rest).1 ->
              b ∈ (flood k (S (length rest)) [seed] [seed] rest).2 ->
              adjacent k a b = false).
    { apply flood_closed; [cbn; lia | ].
      intros c Hc. left. exact Hc. }
    destruct (flood k (S (length rest)) [seed] [seed] rest) as [first rest'].
    cbn [fst snd] in *. cbn in Hfuel.
    intros Ha Hb Hadj.
    assert (Hb' : b ∈ first \/ b ∈ rest').
    { apply elem_of_app. by rewrite Hpart. }
    apply elem_of_cons in Hr as [-> | Hr].
    + destruct Hb' as [Hb' | Hb']; [exact Hb' | ].
      rewrite (Hclosed a b Ha Hb') in Hadj. discriminate.
    + destruct Hb' as [Hb' | Hb'].
      * assert (Ha' : a ∈ rest')
          by (eapply (regions_from_subset fuel); [lia | exact Hr | exact Ha]).
        rewrite adjacent_sym, (Hclosed b a Hb' Ha') in Hadj. discriminate.
      * eapply (IH rest'); [lia | exact Hr | exact Ha | exact Hb' | exact Hadj].
Qed.

(** Regions are connected. *)
Lemma regions_from_connected fuel act region :
  region ∈ regions_from k fuel act ->
  exists seed, seed ∈ region /\ forall a, a ∈ region -> rtc (linked k region) seed a.
Proof.
  revert act. induction fuel as [ | fuel IH]; intros act Hr.
  - by apply elem_of_nil in Hr.
  - destruct act as [ | seed rest]; [by apply elem_of_nil in Hr | ].
    cbn [regions_from] in Hr. apply elem_of_cons in Hr as [-> | Hr].
    + exists seed. split.
      * destruct (flood_extends k (S (length rest)) [seed] [seed] rest) as [more ->].
        apply list_elem_of_here.
      * apply flood_connected; [done | ].
        intros a Ha. apply list_elem_of_singleton in Ha as ->. apply rtc_refl.
    + by apply (IH _ Hr).
Qed.

(** Step 2 of the decoder gives the maximal connected regions: the regions
    share out the active pixels, and each is non-empty, connected and
    closed under taking active neighbours. *)
Lemma regions_are_components act :
  concat (regions k act) ≡ₚ act
  /\ forall region,
       region ∈ regions k act ->
       region <> []
       /\ (exists seed,
             seed ∈ region /\ forall a, a ∈ region -> rtc (linked k region) seed a)
       /\ (forall a b,
             a ∈ region -> b ∈ act -> adjacent k a b = true -> b ∈ region).
Proof.
  split; [apply regions_partition | ].
  intros region Hr. split; [ | split].
  - pose proof (regions_from_nonempty k (length act) act) as Hne.
    rewrite Forall_forall in Hne. by apply Hne.
  - by eapply regions_from_connected.
  - intros a b. by apply (regions_from_closed (length act) act).
Qed.

End Components.

Lemma active_threshold_sublist t1 t2 ch :
  (t1 <= t2)%Q -> active t2 ch `sublist_of` active t1 ch.
Proof.
  intros Ht. unfold active.
  induction (pixels ch) as [ | p ps IH]; [reflexivity | ].
  rewrite !filter_cons.
  destruct (decide (is_active t2 p)) as [H2 | H2];
    destruct (decide (is_active t1 p)) as [H1 | H1].
  - by apply sublist_skip.
  - exfalso. apply H1. unfold is_active in *.
    apply Is_true_true, Qle_bool_iff in H2.
    apply Is_true_true, Qle_bool_iff. exact (Qle_trans _ _ _ Ht H2).
  - by apply sublist_cons.
  - done.
Qed.

Lemma filter_all {A} (P : A -> Prop) `{!forall a, Decision (P a)} (l : list A) :
  Forall P l -> filter P l = l.
Proof.
  induction 1 as [ | a l Ha _ IH]; [reflexivity | ].
  rewrite filter_cons. by rewrite decide_True, IH.
Qed.

Lemma filter_none {A} (P : A -> Prop) `{!forall a, Decision (P a)} (l : list A) :
  Forall (fun a => ~ P a) l -> filter P l = [].
Proof.
  induction 1 as [ | a l Ha _ IH]; [reflexivity | ].
  rewrite filter_cons. by rewrite decide_False.
Qed.

Section Thresholds.

Variable k : Connectivity.

Lemma row_pixels_NoDup r (vs : list Q) :
  NoDup (imap (fun c v => mkPixel r c v) vs).
Proof.
  apply NoDup_alt. intros i j p Hi Hj.
  apply list_lookup_imap_Some in Hi as (v & _ & ->).
  apply list_lookup_imap_Some in Hj as (v' & _ & Hj).
  by inversion Hj.
Qed.

Lemma rows_from_NoDup n (ch : Channel) :
  NoDup (concat (imap (fun r vs => imap (fun c v => mkPixel (n + r) c v) vs) ch))
  /\ Forall (fun p => n <= prow p)
       (concat (imap (fun r vs => imap (fun c v => mkPixel (n + r) c v) vs) ch)).
Proof.
  revert n. induction ch as [ | vs ch IH]; intros n;
    [split; [apply NoDup_nil_2 | constructor] | ].
  rewrite imap_cons. cbn [concat].
  rewrite (imap_ext _ (fun r vs => imap (fun c v => mkPixel (S n + r) c v) vs))
    by (intros i x _; cbn; apply imap_ext; intros; f_equal; lia).
  destruct (IH (S n)) as [Hnodup Hlow]. split.
  - apply NoDup_app. split; [apply row_pixels_NoDup | ].
    split; [ | exact Hnodup].
    intros p Hp Hq. apply elem_of_lookup_imap in Hp as (c & v & -> & _).
    rewrite Forall_forall in Hlow. apply Hlow in Hq. cbn in Hq. lia.
  - apply Forall_app. split.
    + apply Forall_forall. intros p Hp.
      apply elem_of_lookup_imap in Hp as (c & v & -> & _). cbn. lia.
    + eapply Forall_impl; [exact Hlow | ]. cbn. intros p. lia.
Qed.

Lemma pixels_NoDup ch : NoDup (pixels ch).
Proof. exact (proj1 (rows_from_NoDup 0 ch)). Qed.

Lemma active_NoDup t ch : NoDup (active t ch).
Proof. apply NoDup_filter, pixels_NoDup. Qed.

Lemma concat_member_NoDup {A} (ls : list (list A)) l :
  NoDup (concat ls) -> l ∈ ls -> NoDup l.
Proof.
  induction ls as [ | l' ls IH]; cbn; intros Hnodup Hl;
    [by apply elem_of_nil in Hl | ].
  apply NoDup_app in Hnodup as (Hl' & _ & Hls).
  apply elem_of_cons in Hl as [-> | Hl]; [exact Hl' | by apply IH].
Qed.

Lemma region_NoDup t ch region :
  region ∈ regions k (active t ch) -> NoDup region.
Proof.
  apply concat_member_NoDup. rewrite regions_partition. apply active_NoDup.
Qed.

(** A region found at the higher threshold lies inside a region found at
    the lower one. *)
Lemma region_contained t1 t2 ch high :
  (t1 <= t2)%Q ->
  high ∈ regions k (active t2 ch) ->
  exists low,
    low ∈ regions k (active t1 ch) /\ forall a, a ∈ high -> a ∈ low.
Proof.
  intros Ht Hhigh.
  assert (Hact : forall a, a ∈ high -> a ∈ active t1 ch).
  { intros a Ha. eapply elem_of_sublist; [ | apply (active_threshold_sublist _ _ _ Ht)].
    by eapply (regions_from_subset k _ (active t2 ch) high). }
  destruct (regions_from_connected k _ _ _ Hhigh) as (seed & Hseed & Hconn).
  destruct (regions_from_cover k (length (active t1 ch)) (active t1 ch) seed)
    as (low & Hlow & Hin); [done | by apply Hact | ].
  exists low. split; [exact Hlow | ].
  intros a Ha. specialize (Hconn a Ha). clear Ha. revert a Hconn.
  apply rtc_ind_r; [exact Hin | ].
  intros y z _ (_ & Hz & Hadj) IH.
  eapply (regions_from_closed k _ (active t1 ch));
    [done | exact Hlow | exact IH | by apply Hact | exact Hadj].
Qed.

Lemma survives_contained m (high low : list Pixel) :
  NoDup high ->
  (forall a, a ∈ high -> a ∈ low) ->
  survives m high = true -> survives m low = true.
Proof.
  intros Hnodup Hsub. unfold survives. rewrite !Nat.leb_le.
  pose proof (submseteq_length _ _ (NoDup_submseteq _ _ Hnodup Hsub)). lia.
Qed.

Lemma decode_channel_none t1 t2 m c ch :
  (t1 <= t2)%Q ->
  decode_channel k t1 m c ch = [] -> decode_channel k t2 m c ch = [].
Proof.
  unfold decode_channel. intros Ht Hnone.
  apply fmap_nil_inv in Hnone. rewrite filter_none; [reflexivity | ].
  apply Forall_forall. intros high Hhigh Hs.
  destruct (region_contained t1 t2 ch high Ht Hhigh) as (low & Hlow & Hsub).
  assert (Hin : low ∈ filter (fun r => survives m r) (regions k (active t1 ch))).
  { apply list_elem_of_filter. split; [ | exact Hlow].
    apply Is_true_true. eapply survives_contained; [ | exact Hsub | by apply Is_true_true].
    by eapply region_NoDup. }
  rewrite Hnone in Hin. by apply elem_of_nil in Hin.
Qed.

End Thresholds.

Section Order.

Variable k : Connectivity.
Variable t : Q.
Variable m : nat.

Lemma decode_channel_index c ch :
  Forall (fun d => classIndex d = c) (decode_channel k t m c ch).
Proof.
  unfold decode_channel. apply Forall_fmap, Forall_true. reflexivity.
Qed.

Lemma decode_from_cons n ch h :
  decode_from k t m n (ch :: h) = decode_channel k t m n ch ++ decode_from k t m (S n) h.
Proof.
  unfold decode_from. rewrite imap_cons. cbn [concat].
  rewrite Nat.add_0_r. f_equal. f_equal. apply imap_ext.
  intros i x _. cbn. f_equal. lia.
Qed.

Lemma decode_from_lower n h :
  Forall (fun d => n <= classIndex d) (decode_from k t m n h).
Proof.
  revert n. induction h as [ | ch h IH]; intros n; [constructor | ].
  rewrite decode_from_cons. apply Forall_app. split.
  - eapply Forall_impl; [apply decode_channel_index | ].
    cbn. intros d ->. lia.
  - eapply Forall_impl; [apply IH | ]. cbn. intros d. lia.
Qed.

Lemma decode_from_ascending n h :
  StronglySorted le (classIndex <$> decode_from k t m n h).
Proof.
  revert n. induction h as [ | ch h IH]; intros n; [constructor | ].
  rewrite decode_from_cons, fmap_app.
  pose proof (decode_channel_index n ch) as Hn.
  induction Hn as [ | d ds Hd Hds IHds]; [apply IH | ].
  cbn. constructor; [exact IHds | ].
  rewrite <- fmap_app. apply Forall_fmap, Forall_app. split.
  - eapply Forall_impl; [exact Hds | ]. cbn. intros d' ->. lia.
  - eapply Forall_impl; [apply (decode_from_lower (S n)) | ].
    cbn. intros d'. lia.
Qed.

Lemma decode_from_channel n h c ch :
  h !! c = Some ch ->
  filter (fun d => classIndex d = n + c) (decode_from k t m n h)
  = decode_channel k t m (n + c) ch.
Proof.
  revert n c. induction h as [ | ch0 h IH]; intros n c Hc; [discriminate | ].
  rewrite decode_from_cons, filter_app.
  destruct c as [ | c]; cbn in Hc.
  - inversion Hc; subst ch0. rewrite Nat.add_0_r.
    rewrite filter_all by apply decode_channel_index.
    rewrite filter_none; [apply app_nil_r | ].
    eapply Forall_impl; [apply (decode_from_lower (S n)) | ].
    cbn. intros d. lia.
  - rewrite filter_none.
    + replace (n + S c) with (S n + c) by lia. by apply IH.
    + eapply Forall_impl; [apply decode_channel_index | ].
      cbn. intros d ->. lia.
Qed.

End Order.

Lemma detections_of_channel_decode k h t m c ch :
  h !! c = Some ch ->
  detections_of_channel k h t m c = decode_channel k t m c ch.
Proof. intros Hc. exact (decode_from_channel k t m 0 h c ch Hc). Qed.

Lemma decode_ascending k h t m :
  StronglySorted le (classIndex <$> decode k h t m).
Proof. exact (decode_from_ascending k t m 0 h). Qed.

End DecoderFacts.

(** C6.  The scenario of the spec, for either neighbourhood and wherever the
    2 by 2 block sits in the 4 by 4 tile: with threshold 0.5 and minimum
    area 4, [decode] returns exactly one detection, of class 1, at the
    geometric centre of the block, with confidence 0.9; channel 0 gives
    none. *)
Theorem decode_block_scenario k r0 c0 :
  (r0 <= 2)%nat -> (c0 <= 2)%nat ->
  Decoder.decode k (scenario r0 c0) (1 # 2) 4
  = [ mkDetection 1 (Qred (inject_Z (Z.of_nat c0) + (1 # 2)))
                    (Qred (inject_Z (Z.of_nat r0) + (1 # 2))) (9 # 10) ]
  /\ Decoder.decode_channel k (1 # 2) 4 0 scenario_zero = []
  /\ detections_of_channel k (scenario r0 c0) (1 # 2) 4 0 = [].
Proof.
  intros Hr Hc.
  destruct r0 as [ | [ | [ | r0]]]; [ | | | lia];
    (destruct c0 as [ | [ | [ | c0]]]; [ | | | lia]);
    destruct k; vm_compute; repeat split.
Qed.

(** The block in the middle of the tile: its centre is (1.5, 1.5). *)
Lemma decode_block_scenario_witness :
  Decoder.decode Decoder.Eight (scenario 1 1) (1 # 2) 4
  = [ mkDetection 1 (3 # 2) (3 # 2) (9 # 10) ].
Proof.
  apply (decode_block_scenario Decoder.Eight 1 1); lia.
Defined.

(** C7 as stated fails: on [bridged], with minimum area 2, the threshold
    0.2 gives one region of five pixels and so one detection, and the
    higher threshold 0.5 cuts the bridge and gives two. *)
Lemma threshold_monotonicity_counterexample :
  (2 # 10 <= 5 # 10)
  /\ bridged !! 0%nat = Some [[9 # 10; 9 # 10; 3 # 10; 9 # 10; 9 # 10]]
  /\ (forall k,
        length (detections_of_channel k bridged (2 # 10) 2 0) = 1%nat
        /\ length (detections_of_channel k bridged (5 # 10) 2 0) = 2%nat)
  /\ ~ (forall k h c t1 t2 m,
          t1 <= t2 ->
          (length (detections_of_channel k h t2 m c)
           <= length (detections_of_channel k h t1 m c))%nat).
Proof.
  split; [discriminate | ].
  split; [reflexivity | ].
  split; [intros []; vm_compute; split; reflexivity | ].
  intros H.
  specialize (H Decoder.Eight bridged 0%nat (2 # 10) (5 # 10) 2%nat).
  assert (Hle : 2 # 10 <= 5 # 10) by discriminate.
  apply H in Hle. vm_compute in Hle. lia.
Qed.

(** C7, amended.  Raising the threshold never adds an active pixel to a
    channel: the active pixels at the higher threshold are among those at
    the lower one, in the same order, and every region found at the higher
    threshold lies inside a region found at the lower one.  The regions of
    a channel share out its active pixels, so their total area does not
    grow; with minimum area [m] the detections of the channel at the higher
    threshold number at most the active pixels at the lower threshold
    divided by [m]; and a channel that gives no detection at the lower
    threshold gives none at the higher. *)
Theorem threshold_monotone_active_area k h c ch t1 t2 m :
  h !! c = Some ch ->
  t1 <= t2 ->
  Decoder.active t2 ch `sublist_of` Decoder.active t1 ch
  /\ (length (Decoder.active t2 ch) <= length (Decoder.active t1 ch))%nat
  /\ (forall high,
        high ∈ Decoder.regions k (Decoder.active t2 ch) ->
        exists low,
          low ∈ Decoder.regions k (Decoder.active t1 ch)
          /\ forall a, a ∈ high -> a ∈ low)
  /\ concat (Decoder.regions k (Decoder.active t1 ch)) ≡ₚ Decoder.active t1 ch
  /\ concat (Decoder.regions k (Decoder.active t2 ch)) ≡ₚ Decoder.active t2 ch
  /\ (length (concat (Decoder.regions k (Decoder.active t2 ch)))
      <= length (concat (Decoder.regions k (Decoder.active t1 ch))))%nat
  /\ (m * length (detections_of_channel k h t2 m c)
      <= length (Decoder.active t1 ch))%nat
  /\ (detections_of_channel k h t1 m c = [] ->
      detections_of_channel k h t2 m c = []).
Proof.
  intros Hc Ht.
  pose proof (DecoderFacts.active_threshold_sublist t1 t2 ch Ht) as Hsub.
  pose proof (sublist_length _ _ Hsub) as Hlen.
  split; [exact Hsub | ].
  split; [exact Hlen | ].
  split; [intros high; by apply DecoderFacts.region_contained | ].
  split; [apply DecoderFacts.regions_partition | ].
  split; [apply DecoderFacts.regions_partition | ].
  split; [by rewrite !DecoderFacts.regions_partition | ].
  rewrite !(DecoderFacts.detections_of_channel_decode k h _ m c ch Hc).
  split.
  - etrans; [apply DecoderFacts.decode_channel_area | exact Hlen].
  - by apply DecoderFacts.decode_channel_none.
Qed.

Lemma threshold_monotone_active_area_witness :
  (2 * length (detections_of_channel Decoder.Eight bridged (5 # 10) 2 0)
   <= length (Decoder.active (2 # 10) [[9 # 10; 9 # 10; 3 # 10; 9 # 10; 9 # 10]]))%nat.
Proof.
  apply (threshold_monotone_active_area Decoder.Eight bridged 0
           [[9 # 10; 9 # 10; 3 # 10; 9 # 10; 9 # 10]] (2 # 10) (5 # 10) 2).
  - reflexivity.
  - discriminate.
Defined.

(** The order of the detections: ascending channel index; within a channel,
    the surviving regions in discovery order, and regions are discovered in
    the order in which the raster scan meets their first pixel. *)
Lemma decode_output_order k h t m :
  StronglySorted le (classIndex <$> Decoder.decode k h t m)
  /\ (forall c ch,
        h !! c = Some ch ->
        detections_of_channel k h t m c = Decoder.decode_channel k t m c ch
        /\ omap head (Decoder.regions k (Decoder.active t ch))
             `sublist_of` Decoder.pixels ch
        /\ Forall (fun r => r <> []) (Decoder.regions k (Decoder.active t ch))).
Proof.
  split; [apply DecoderFacts.decode_ascending | ].
  intros c ch Hc. split; [ | split].
  - apply (DecoderFacts.detections_of_channel_decode k h t m c ch Hc).
  - etrans; [apply DecoderFacts.regions_from_seeds | apply sublist_filter].
  - apply DecoderFacts.regions_from_nonempty.
Qed.

(** ** The evaluation pass *)

Module MainFacts.
Local Open Scope nat_scope.

Section Pass.

Context {Points : Type}.
Variable ep : Heatmap -> Heatmap -> Q -> nat -> Result (Points * Points).
Variable c2n : Points -> list CanonicalClass -> Result (list string).
Context {Inp : Type}.
Variable ho_out : list (Inp * Inp).

Lemma getitem_label file : getitem (label_of file) "External ID" = Ok file.
Proof. unfold getitem, label_of. by rewrite lookup_singleton_eq. Qed.

Lemma loop_body_tile tiles i t results :
  tiles !! i = Some t ->
  i < length ho_out ->
  Main.loop_body ep c2n (preds_of tiles) (lbls_of tiles) ho_out (labels_of tiles)
    i results
  = (row <- row_of ep c2n t ;; Ok (results ++ [row]))%result.
Proof.
  intros Ht Hi. apply lookup_lt_is_Some_2 in Hi as [io Hio].
  unfold Main.loop_body, Main.ndarray_item, subscript, preds_of, lbls_of, labels_of.
  rewrite Hio, !list_lookup_fmap, Ht. cbn.
  unfold row_of.
  destruct (Main.tile_names ep c2n (tile_truth t) (tile_pred t)) as [names | e];
    [ | reflexivity].
  cbn. by rewrite getitem_label.
Qed.

Lemma for_range_tiles done rest locals :
  length (done ++ rest) <= length ho_out ->
  Main.for_range ep c2n (preds_of (done ++ rest)) (lbls_of (done ++ rest)) ho_out
    (labels_of (done ++ rest)) (seq (length done) (length rest)) locals
  = (rows <- rows_of ep c2n rest ;;
     Ok (mkLocals (ho_results locals ++ rows)
                  (idx_after (length done) (length rest) (idx locals))))%result.
Proof.
  revert done locals. induction rest as [ | t rest IH]; intros done locals Hlen.
  - cbn. rewrite app_nil_r. by destruct locals.
  - cbn [length seq Main.for_range rows_of].
    rewrite (loop_body_tile _ _ t).
    + destruct (row_of ep c2n t) as [row | e]; [ | reflexivity]. cbn [rbind].
      specialize (IH (done ++ [t]) (mkLocals (ho_results locals ++ [row])
                                             (Some (length done)))).
      rewrite <- (assoc_L (++)) in IH. cbn [app] in IH.
      replace (length (done ++ [t])) with (S (length done)) in IH
        by (rewrite length_app; cbn; lia).
      rewrite IH by exact Hlen.
      destruct (rows_of ep c2n rest) as [rows | e]; [ | reflexivity].
      cbn. rewrite <- (assoc_L (++)). cbn. f_equal. f_equal.
      destruct rest; cbn; f_equal; lia.
    + by rewrite lookup_app_r, Nat.sub_diag.
    + rewrite length_app in Hlen. cbn in Hlen. lia.
Qed.

(** The pass is the sequence of the rows of its tiles, between two
    readings of the clock, and a final log record that reads [idx]. *)
Lemma run_pass_rows tiles w :
  length tiles <= length ho_out ->
  run_pass ep c2n ho_out tiles w
  = match rows_of ep c2n tiles with
    | Err e => Raised e (mkWorld (wall w) (S (ticks w)) (logged w))
    | Ok rows =>
        let elapsed := (wall w (S (ticks w)) - wall w (ticks w))%Q in
        match tiles with
        | [] => Raised (UnboundLocalError "idx")
                  (mkWorld (wall w) (S (S (ticks w))) (logged w))
        | _ :: _ =>
            Returned (rows, elapsed)
              (mkWorld (wall w) (S (S (ticks w)))
                 (logged w ++ [TimeToPredict (length tiles) elapsed]))
        end
    end.
Proof.
  intros Hlen. unfold run_pass, Main.evaluation, mbind, time_time, lift.
  cbn [wall ticks logged].
  replace (length (labels_of tiles)) with (length tiles)
    by (unfold labels_of; by rewrite length_fmap).
  pose proof (for_range_tiles [] tiles (mkLocals [] None)) as Hloop.
  cbn [app length ho_results idx] in Hloop. rewrite Hloop by exact Hlen.
  destruct (rows_of ep c2n tiles) as [rows | e]; [ | reflexivity].
  cbn [rbind]. destruct tiles as [ | t tiles]; [reflexivity | ].
  cbn. unfold mret. by rewrite Nat.add_1_r.
Qed.

Lemma rows_of_Ok tiles rows :
  rows_of ep c2n tiles = Ok rows
  <-> Forall2 (fun t row => row_of ep c2n t = Ok row) tiles rows.
Proof.
  revert rows. induction tiles as [ | t tiles IH]; intros rows; cbn.
  - split.
    + intros H. inversion H. constructor.
    + intros H. inversion H. reflexivity.
  - split.
    + destruct (row_of ep c2n t) as [row | e] eqn:Hrow; [ | discriminate].
      cbn. destruct (rows_of ep c2n tiles) as [rows' | e]; [ | discriminate].
      cbn. intros H. inversion H. constructor; [exact Hrow | by apply IH].
    + intros H. inversion H as [ | ? row ? rows' Hrow Hrest]; subst.
      rewrite Hrow. cbn. apply IH in Hrest. by rewrite Hrest.
Qed.


(** A pass over at least one tile, none of which raises, returns one row
    per tile in the order of the tiles and the time between the two
    readings of the clock; the rows do not depend on the clock. *)
Lemma run_pass_returns tiles rows w :
  tiles <> [] ->
  length tiles <= length ho_out ->
  Forall2 (fun t row => row_of ep c2n t = Ok row) tiles rows ->
  run_pass ep c2n ho_out tiles w
  = Returned (rows, (wall w (S (ticks w)) - wall w (ticks w))%Q)
      (mkWorld (wall w) (S (S (ticks w)))
         (logged w ++ [TimeToPredict (length tiles)
                         (wall w (S (ticks w)) - wall w (ticks w))%Q]))
    /\ length rows = length tiles.
Proof.
  intros Hne Hlen Hrows. split; [ | symmetry; by eapply Forall2_length].
  rewrite run_pass_rows by exact Hlen.
  apply rows_of_Ok in Hrows. rewrite Hrows.
  by destruct tiles.
Qed.

End Pass.

Section Abort.

Context {Points : Type}.
Variable ep : Heatmap -> Heatmap -> Q -> nat -> Result (Points * Points).
Variable c2n : Points -> list CanonicalClass -> Result (list string).
Context {Inp : Type}.
Variable preds lbls : list Heatmap.
Variable ho_out : list (Inp * Inp).
Variable holdout_lbls : list (gmap string string).

(** A raise in the body leaves the loop: the indices after it are not
    visited. *)
Lemma for_range_raises before i after locals reached e :
  Main.for_range ep c2n preds lbls ho_out holdout_lbls before locals = Ok reached ->
  Main.loop_body ep c2n preds lbls ho_out holdout_lbls i (ho_results reached) = Err e ->
  Main.for_range ep c2n preds lbls ho_out holdout_lbls (before ++ i :: after) locals
  = Err e.
Proof.
  revert locals. induction before as [ | j before IH]; intros locals Hbefore Hbody; cbn.
  - cbn in Hbefore. inversion Hbefore; subst. by rewrite Hbody.
  - cbn in Hbefore.
    destruct (Main.loop_body ep c2n preds lbls ho_out holdout_lbls j
                (ho_results locals)) as [results | e']; [ | discriminate].
    cbn in *. by apply IH.
Qed.

Lemma evaluation_raises i reached e w :
  i < length holdout_lbls ->
  Main.for_range ep c2n preds lbls ho_out holdout_lbls (seq 0 i) (mkLocals [] None)
  = Ok reached ->
  Main.loop_body ep c2n preds lbls ho_out holdout_lbls i (ho_results reached) = Err e ->
  Main.evaluation ep c2n preds lbls ho_out holdout_lbls w
  = Raised e (mkWorld (wall w) (S (ticks w)) (logged w)).
Proof.
  intros Hi Hbefore Hbody.
  unfold Main.evaluation, mbind, time_time, lift. cbn [wall ticks logged].
  replace (length holdout_lbls) with (i + S (length holdout_lbls - S i)) by lia.
  rewrite seq_app. cbn [seq].
  by rewrite (for_range_raises _ i _ _ reached e Hbefore Hbody).
Qed.

End Abort.

End MainFacts.

(** ** Rows *)

Module RowFacts.
Local Open Scope nat_scope.

Lemma decode_from_upper k t m n h :
  Forall (fun d => classIndex d < n + length h) (Decoder.decode_from k t m n h).
Proof.
  revert n. induction h as [ | ch h IH]; intros n; [constructor | ].
  rewrite DecoderFacts.decode_from_cons. apply Forall_app. split.
  - eapply Forall_impl; [apply DecoderFacts.decode_channel_index | ].
    cbn. intros d ->. lia.
  - eapply Forall_impl; [apply IH | ]. cbn. intros d. lia.
Qed.

Lemma decode_upper k h t m :
  Forall (fun d => classIndex d < length h) (Decoder.decode k h t m).
Proof. exact (decode_from_upper k t m 0 h). Qed.

Lemma classes2name_in_range points cls :
  Forall (fun d => classIndex d < length cls) points ->
  exists names,
    Utils.classes2name points cls = Ok names
    /\ Forall2 (fun d name => displayName <$> cls !! classIndex d = Some name)
         points names.
Proof.
  induction 1 as [ | d points Hd _ (names & Hnames & Hall)].
  - exists []. split; [reflexivity | constructor].
  - apply lookup_lt_is_Some_2 in Hd as [c Hc].
    exists (displayName c :: names). split.
    + cbn. unfold subscript. rewrite Hc. cbn. by rewrite Hnames.
    + constructor; [by rewrite Hc | exact Hall].
Qed.

Lemma classes2name_out_of_range points d rest cls :
  Forall (fun d => classIndex d < length cls) points ->
  length cls <= classIndex d ->
  Utils.classes2name (points ++ d :: rest) cls
  = Err (IndexError "list index out of range").
Proof.
  intros Hin Hout. induction Hin as [ | d0 points Hd _ IH]; cbn.
  - unfold subscript. by rewrite lookup_ge_None_2.
  - apply lookup_lt_is_Some_2 in Hd as [c Hc].
    unfold subscript at 1. rewrite Hc. cbn. by rewrite IH.
Qed.

Lemma decode_names k h t m :
  length h <= length classes ->
  exists names,
    Utils.classes2name (Decoder.decode k h t m) classes = Ok names
    /\ Forall2 named (Decoder.decode k h t m) names.
Proof.
  intros Hlen. apply classes2name_in_range.
  eapply Forall_impl; [apply decode_upper | ]. cbn. intros d. lia.
Qed.

End RowFacts.

(** C2.  The row of tile [i]: the ground truth and the prediction are
    decoded each on its own with the same threshold 0.1 and minimum area 4;
    every detection gives the display name at the position of its class
    index in [classes]; the names of the ground truth come first, in decode
    order, then those of the prediction, in decode order, then the file
    name. *)
Theorem row_building {Inp : Type} k (preds lbls : list Heatmap)
    (ho_out : list (Inp * Inp)) (holdout_lbls : list (gmap string string))
    (i : nat) (pred lbl : Heatmap) (label : gmap string string) (file : string)
    (results : list Row) :
  is_Some (ho_out !! i) ->
  preds !! i = Some pred ->
  lbls !! i = Some lbl ->
  holdout_lbls !! i = Some label ->
  label !! "External ID"%string = Some file ->
  (length lbl <= length classes)%nat ->
  (length pred <= length classes)%nat ->
  exists targetClassNames predictedClassNames,
    Forall2 named (Decoder.decode k lbl Main.score_thresh Main.min_area)
      targetClassNames
    /\ Forall2 named (Decoder.decode k pred Main.score_thresh Main.min_area)
         predictedClassNames
    /\ Main.loop_body (Utils.extract_predictions k) Utils.classes2name
         preds lbls ho_out holdout_lbls i results
       = Ok (results ++ [(targetClassNames ++ predictedClassNames) ++ [file]]).
Proof.
  intros [io Hio] Hpred Hlbl Hlabel Hfile Hl Hp.
  destruct (RowFacts.decode_names k lbl Main.score_thresh Main.min_area Hl)
    as (target & Ht & Htn).
  destruct (RowFacts.decode_names k pred Main.score_thresh Main.min_area Hp)
    as (prediction & Hq & Hqn).
  exists target, prediction. split; [exact Htn | ]. split; [exact Hqn | ].
  unfold Main.loop_body, Main.ndarray_item, subscript, getitem.
  rewrite Hio, Hpred, Hlbl, Hlabel. cbn [rbind].
  unfold Main.tile_names, Utils.extract_predictions. cbn [rbind fst snd].
  rewrite Ht, Hq. cbn [rbind fst snd]. by rewrite Hfile.
Qed.

(** A tile whose ground truth has a cell of class 0 and whose prediction
    has one of class 1. *)
Lemma row_building_witness :
  exists targetClassNames predictedClassNames,
    Forall2 named
      (Decoder.decode Decoder.Eight [scenario_block 0 0; scenario_zero]
         Main.score_thresh Main.min_area)
      targetClassNames
    /\ Forall2 named
         (Decoder.decode Decoder.Eight [scenario_zero; scenario_block 1 1]
            Main.score_thresh Main.min_area)
         predictedClassNames
    /\ Main.loop_body (Utils.extract_predictions Decoder.Eight) Utils.classes2name
         [[scenario_zero; scenario_block 1 1]] [[scenario_block 0 0; scenario_zero]]
         [(tt, tt)] [label_of "tile_a.png"] 0 []
       = Ok ([] ++ [(targetClassNames ++ predictedClassNames) ++ ["tile_a.png"%string]]).
Proof.
  apply (row_building Decoder.Eight
           [[scenario_zero; scenario_block 1 1]]
           [[scenario_block 0 0; scenario_zero]]
           [(tt, tt)] [label_of "tile_a.png"] 0
           [scenario_zero; scenario_block 1 1]
           [scenario_block 0 0; scenario_zero]
           (label_of "tile_a.png") "tile_a.png" []);
    [ by eexists | reflexivity | reflexivity | reflexivity
    | vm_compute; reflexivity | vm_compute; lia | vm_compute; lia ].
Defined.

Example row_of_scenario_tile :
  Main.loop_body (Utils.extract_predictions Decoder.Eight) Utils.classes2name
    [[scenario_zero; scenario_block 1 1]] [[scenario_block 0 0; scenario_zero]]
    [(tt, tt)] [label_of "tile_a.png"] 0 []
  = Ok [["Eosinophil"; "Lymphocyte"; "tile_a.png"]%string].
Proof. vm_compute. reflexivity. Qed.

(** C3.  On an empty holdout set the loop never binds [idx], so the final
    log line, which reads [idx + 1], raises: the pass ends in an error
    after both readings of the clock, with nothing logged, instead of
    giving no rows and the elapsed time. *)
Theorem evaluation_empty_holdout {Points Inp : Type}
    (extract_predictions : Heatmap -> Heatmap -> Q -> nat -> Result (Points * Points))
    (classes2name : Points -> list CanonicalClass -> Result (list string))
    (preds lbls : list Heatmap) (ho_out : list (Inp * Inp)) (w : World) :
  Main.evaluation extract_predictions classes2name preds lbls ho_out [] w
  = Raised (UnboundLocalError "idx")
      (mkWorld (wall w) (S (S (ticks w))) (logged w)).
Proof. reflexivity. Qed.




(** * Further properties of the code *)

(** ** [check_args], further *)

Lemma prefix_app needle rest : String.prefix needle (needle +:+ rest) = true.
Proof.
  induction needle as [ | ch needle IH]; [by destruct rest | ].
  simpl. destruct (Ascii.ascii_dec ch ch); [exact IH | done].
Qed.

Lemma str_contains_middle needle before after :
  str_contains needle (before +:+ needle +:+ after) = true.
Proof.
  apply str_contains_app_r.
  pose proof (prefix_app needle after) as Hpre.
  destruct (needle +:+ after); cbn -[String.prefix]; by rewrite Hpre.
Qed.

Lemma check_args_ok_spec (isdir path_exists : string -> bool) (args : Namespace) :
  check_args isdir path_exists args = Ok tt
  <-> (exists o, output args = Some o /\ isdir o = true)
      /\ (exists d, data args = Some d /\ path_exists d = true)
      /\ (0 <= batch_size args)%Z
      /\ (0 <= num_epochs args)%Z
      /\ (0 <= seed args)%Z.
Proof.
  unfold check_args. split.
  - destruct (output args) as [o | ]; [ | discriminate].
    destruct (isdir o) eqn:Hdir; [ | discriminate].
    destruct (data args) as [d | ]; [ | discriminate].
    destruct (path_exists d) eqn:Hex; [ | discriminate].
    cbn.
    destruct (Z.ltb_spec (batch_size args) 0); [discriminate | ].
    destruct (Z.ltb_spec (num_epochs args) 0); [discriminate | ].
    destruct (Z.ltb_spec (seed args) 0); [discriminate | ].
    intros _. repeat split; eauto.
  - intros ((o & -> & ->) & (d & -> & ->) & Hb & Hn & Hs). cbn.
    destruct (Z.ltb_spec (batch_size args) 0); [lia | ].
    destruct (Z.ltb_spec (num_epochs args) 0); [lia | ].
    destruct (Z.ltb_spec (seed args) 0); [lia | ].
    reflexivity.
Qed.

(** X1.  [check_args] returns normally exactly when [--output] is given and
    is a directory, [--data] is given and exists, and none of the batch
    size, the number of epochs and the seed is negative. *)
Theorem check_args_ok_iff (isdir path_exists : string -> bool) (args : Namespace) :
  check_args isdir path_exists args = Ok tt
  <-> (exists o, output args = Some o /\ isdir o = true)
      /\ (exists d, data args = Some d /\ path_exists d = true)
      /\ (0 <= batch_size args)%Z
      /\ (0 <= num_epochs args)%Z
      /\ (0 <= seed args)%Z.
Proof. apply check_args_ok_spec. Qed.

(** X2.  The error of [check_args] names what it rejects: the path that is
    not a directory, the path that does not exist, or, once both paths have
    passed, the first negative number in decimal. *)
Theorem check_args_error_names_offender (isdir path_exists : string -> bool)
    (args : Namespace) :
  (forall o, output args = Some o -> isdir o = false ->
     exists msg, check_args isdir path_exists args = Err (Exception msg)
                 /\ str_contains o msg = true)
  /\ (forall o d, output args = Some o -> isdir o = true ->
        data args = Some d -> path_exists d = false ->
        exists msg, check_args isdir path_exists args = Err (Exception msg)
                    /\ str_contains d msg = true)
  /\ (forall o d, output args = Some o -> isdir o = true ->
        data args = Some d -> path_exists d = true ->
        ((batch_size args < 0)%Z ->
         exists msg, check_args isdir path_exists args = Err (Exception msg)
                     /\ str_contains (pretty (batch_size args)) msg = true)
        /\ ((0 <= batch_size args)%Z -> (num_epochs args < 0)%Z ->
            exists msg, check_args isdir path_exists args = Err (Exception msg)
                        /\ str_contains (pretty (num_epochs args)) msg = true)
        /\ ((0 <= batch_size args)%Z -> (0 <= num_epochs args)%Z ->
            (seed args < 0)%Z ->
            exists msg, check_args isdir path_exists args = Err (Exception msg)
                        /\ str_contains (pretty (seed args)) msg = true)).
Proof.
  split; [ | split].
  - intros o Ho Hdir. unfold check_args. rewrite Ho, Hdir. cbn.
    eexists. split; [reflexivity | apply str_contains_middle].
  - intros o d Ho Hdir Hd Hex. unfold check_args. rewrite Ho, Hdir, Hd, Hex. cbn.
    eexists. split; [reflexivity | apply str_contains_middle].
  - intros o d Ho Hdir Hd Hex.
    rewrite (check_args_numbers _ _ args o d Ho Hdir Hd Hex).
    split; [ | split].
    + intros Hb. destruct (Z.ltb_spec (batch_size args) 0); [ | lia].
      eexists. split; [reflexivity | apply str_contains_middle].
    + intros Hb Hn. destruct (Z.ltb_spec (batch_size args) 0); [lia | ].
      destruct (Z.ltb_spec (num_epochs args) 0); [ | lia].
      eexists. split; [reflexivity | apply str_contains_middle].
    + intros Hb Hn Hs. destruct (Z.ltb_spec (batch_size args) 0); [lia | ].
      destruct (Z.ltb_spec (num_epochs args) 0); [lia | ].
      destruct (Z.ltb_spec (seed args) 0); [ | lia].
      eexists. split; [reflexivity | apply str_contains_middle].
Qed.

(** The output path is a file, not a directory. *)
Lemma check_args_error_names_offender_witness :
  exists msg,
    check_args (String.eqb "/out") (String.eqb "/in")
      (mkArgs (Some "/tmp/model.pkl") (Some "/in") 2 60 42 0) = Err (Exception msg)
    /\ str_contains "/tmp/model.pkl" msg = true.
Proof.
  apply (proj1 (check_args_error_names_offender (String.eqb "/out") (String.eqb "/in")
                  (mkArgs (Some "/tmp/model.pkl") (Some "/in") 2 60 42 0))
           "/tmp/model.pkl"%string); reflexivity.
Defined.

(** ** The evaluation pass on any inputs *)

Module PassFacts.
Local Open Scope nat_scope.

Section Loop.

Context {Points : Type}.
Variable ep : Heatmap -> Heatmap -> Q -> nat -> Result (Points * Points).
Variable c2n : Points -> list CanonicalClass -> Result (list string).
Context {Inp : Type}.
Variable preds lbls : list Heatmap.
Variable ho_out : list (Inp * Inp).
Variable holdout_lbls : list (gmap string string).

Local Abbreviation loop_body := (Main.loop_body ep c2n preds lbls ho_out holdout_lbls).
Local Abbreviation for_range := (Main.for_range ep c2n preds lbls ho_out holdout_lbls).
Local Abbreviation evaluation := (Main.evaluation ep c2n preds lbls ho_out holdout_lbls).

(** What a body that returns has read and made. *)
Lemma loop_body_ok_inv i results out :
  loop_body i results = Ok out ->
  exists io pred lbl names label fname,
    ho_out !! i = Some io /\ preds !! i = Some pred /\ lbls !! i = Some lbl
    /\ Main.tile_names ep c2n lbl pred = Ok names
    /\ holdout_lbls !! i = Some label
    /\ label !! "External ID"%string = Some fname
    /\ out = results ++ [(names.1 ++ names.2) ++ [fname]].
Proof.
  unfold Main.loop_body, Main.ndarray_item, subscript, getitem.
  destruct (ho_out !! i) as [io | ]; [ | discriminate]. cbn [rbind].
  destruct (preds !! i) as [pred | ]; [ | discriminate]. cbn [rbind].
  destruct (lbls !! i) as [lbl | ]; [ | discriminate]. cbn [rbind].
  destruct (Main.tile_names ep c2n lbl pred) as [names | ] eqn:Hnames;
    [ | discriminate]. cbn [rbind].
  destruct (holdout_lbls !! i) as [label | ]; [ | discriminate]. cbn [rbind].
  destruct (label !! "External ID"%string) as [fname | ] eqn:Hfile;
    [ | discriminate]. cbn [rbind].
  intros H. inversion H. by exists io, pred, lbl, names, label, fname.
Qed.

(** Whether the body raises, and with what, does not depend on the rows
    made so far. *)
Lemma loop_body_err_any i results results' e :
  loop_body i results = Err e -> loop_body i results' = Err e.
Proof.
  unfold Main.loop_body.
  destruct (subscript "list index out of range" ho_out i); [ | done]. cbn [rbind].
  destruct (Main.ndarray_item preds i); [ | done]. cbn [rbind].
  destruct (Main.ndarray_item lbls i); [ | done]. cbn [rbind].
  destruct (Main.tile_names ep c2n _ _); [ | done]. cbn [rbind].
  destruct (subscript "list index out of range" holdout_lbls i); [ | done].
  cbn [rbind]. by destruct (getitem _ _).
Qed.

Lemma idx_after_loop_cons i later before :
  idx_after_loop (i :: later) before = idx_after_loop later (Some i).
Proof.
  unfold idx_after_loop. destruct later as [ | j later]; [reflexivity | ].
  change (last (i :: j :: later)) with (last (j :: later)).
  by destruct (last (j :: later)) eqn:Hlast; [ | apply last_None in Hlast].
Qed.

(** A loop that ends has appended one row per index, in the order of the
    indices, and has left the earlier rows as they were. *)
Lemma for_range_ok_inv indices locals reached :
  for_range indices locals = Ok reached ->
  exists rows,
    ho_results reached = ho_results locals ++ rows
    /\ Forall2 (fun i row => loop_body i [] = Ok [row]) indices rows
    /\ idx reached = idx_after_loop indices (idx locals).
Proof.
  revert locals. induction indices as [ | i later IH]; intros locals; cbn.
  - intros H. inversion H; subst. exists []. rewrite app_nil_r.
    repeat split. constructor.
  - destruct (loop_body i (ho_results locals)) as [results | ] eqn:Hbody;
      [ | discriminate]. cbn [rbind].
    intros Hlater. apply IH in Hlater as (rows & Hrows & Hall & Hidx).
    cbn [ho_results idx] in *.
    pose proof Hbody as Hinv.
    apply loop_body_ok_inv in Hinv
      as (io & pred & lbl & names & label & fname
          & Hio & Hpred & Hlbl & Hnames & Hlabel & Hfile & ->).
    exists (((names.1 ++ names.2) ++ [fname]) :: rows). split; [ | split].
    + by rewrite Hrows, <- (assoc_L (++)).
    + constructor; [ | exact Hall].
      unfold Main.loop_body, Main.ndarray_item, subscript, getitem.
      by rewrite Hio, Hpred, Hlbl, Hlabel; cbn [rbind]; rewrite Hnames;
        cbn [rbind]; rewrite Hfile.
    + by rewrite idx_after_loop_cons.
Qed.

(** A loop that raises did so in the body of one index, after the bodies of
    the indices before it had returned. *)
Lemma for_range_err_inv indices locals e :
  for_range indices locals = Err e ->
  exists before i after reached,
    indices = before ++ i :: after
    /\ for_range before locals = Ok reached
    /\ loop_body i (ho_results reached) = Err e.
Proof.
  revert locals. induction indices as [ | i later IH]; intros locals; cbn;
    [discriminate | ].
  destruct (loop_body i (ho_results locals)) as [results | e'] eqn:Hbody.
  - cbn [rbind]. intros Hlater.
    apply IH in Hlater as (before & j & after & reached & -> & Hbefore & Hj).
    exists (i :: before), j, after, reached. repeat split; [ | exact Hj].
    cbn. by rewrite Hbody.
  - cbn [rbind]. intros H. inversion H; subst.
    by exists [], i, later, locals.
Qed.

Lemma seq_split_at n before i after :
  seq 0 n = before ++ i :: after -> before = seq 0 i /\ i < n.
Proof.
  intros Hseq.
  assert (Hi : seq 0 n !! length before = Some i)
    by (rewrite Hseq; by rewrite lookup_app_r, Nat.sub_diag).
  apply lookup_seq in Hi as [Hi Hlt]. cbn in Hi. subst i. split; [ | exact Hlt].
  apply (f_equal (take (length before))) in Hseq.
  rewrite take_app_length, take_seq in Hseq.
  replace (length before `min` n) with (length before) in Hseq by lia.
  by symmetry.
Qed.

(** The pass returns exactly when the loop over all labels ends and there
    was at least one label. *)
Lemma evaluation_returned_inv w rows elapsed w' :
  evaluation w = Returned (rows, elapsed) w' ->
  exists reached,
    for_range (seq 0 (length holdout_lbls)) (mkLocals [] None) = Ok reached
    /\ rows = ho_results reached
    /\ holdout_lbls <> []
    /\ elapsed = (wall w (S (ticks w)) - wall w (ticks w))%Q
    /\ w' = mkWorld (wall w) (S (S (ticks w)))
              (logged w ++ [TimeToPredict (length holdout_lbls) elapsed]).
Proof.
  unfold Main.evaluation, mbind, time_time, lift. cbn [wall ticks logged].
  destruct (for_range (seq 0 (length holdout_lbls)) (mkLocals [] None))
    as [reached | ] eqn:Hloop; [ | discriminate].
  pose proof Hloop as Hinv.
  apply for_range_ok_inv in Hinv as (rows' & _ & _ & Hidx). cbn [idx] in Hidx.
  unfold Main.load_idx. rewrite Hidx. unfold idx_after_loop.
  destruct (last (seq 0 (length holdout_lbls))) as [i | ] eqn:Hlast;
    [ | discriminate].
  cbn. unfold mret. intros H. inversion H; subst. exists reached.
  assert (Hi : S i = length holdout_lbls).
  { rewrite last_lookup, length_seq in Hlast.
    apply lookup_seq in Hlast as [-> Hlt]. lia. }
  repeat split; [ | by rewrite Nat.add_1_r, Hi].
  intros ->. cbn in Hi. lia.
Qed.

Lemma evaluation_raised_inv w e w' :
  evaluation w = Raised e w' ->
  (exists i reached,
     i < length holdout_lbls
     /\ for_range (seq 0 i) (mkLocals [] None) = Ok reached
     /\ loop_body i (ho_results reached) = Err e
     /\ w' = mkWorld (wall w) (S (ticks w)) (logged w))
  \/ (holdout_lbls = [] /\ e = UnboundLocalError "idx"
      /\ w' = mkWorld (wall w) (S (S (ticks w))) (logged w)).
Proof.
  unfold Main.evaluation, mbind, time_time, lift. cbn [wall ticks logged].
  destruct (for_range (seq 0 (length holdout_lbls)) (mkLocals [] None))
    as [reached | e'] eqn:Hloop.
  - pose proof Hloop as Hinv.
    apply for_range_ok_inv in Hinv as (rows' & _ & _ & Hidx). cbn [idx] in Hidx.
    unfold Main.load_idx. rewrite Hidx. unfold idx_after_loop.
    destruct (last (seq 0 (length holdout_lbls))) as [i | ] eqn:Hlast;
      [discriminate | ].
    intros H. inversion H; subst. right.
    apply last_None in Hlast. destruct holdout_lbls; [done | discriminate].
  - intros H. inversion H; subst. left.
    apply for_range_err_inv in Hloop
      as (before & i & after & reached & Hseq & Hbefore & Hbody).
    apply seq_split_at in Hseq as [-> Hi]. by exists i, reached.
Qed.

End Loop.

Section Inputs.

Context {Points : Type}.
Variable ep : Heatmap -> Heatmap -> Q -> nat -> Result (Points * Points).
Variable c2n : Points -> list CanonicalClass -> Result (list string).
Context {Inp Inp' : Type}.
Variable preds lbls preds' lbls' : list Heatmap.
Variable ho_out : list (Inp * Inp).
Variable ho_out' : list (Inp' * Inp').
Variable holdout_lbls : list (gmap string string).

(** Two loops whose bodies agree at every index visited agree. *)
Lemma for_range_ext indices locals :
  (forall i results,
     i ∈ indices ->
     Main.loop_body ep c2n preds lbls ho_out holdout_lbls i results
     = Main.loop_body ep c2n preds' lbls' ho_out' holdout_lbls i results) ->
  Main.for_range ep c2n preds lbls ho_out holdout_lbls indices locals
  = Main.for_range ep c2n preds' lbls' ho_out' holdout_lbls indices locals.
Proof.
  revert locals. induction indices as [ | i later IH]; intros locals Hext;
    [reflexivity | ].
  cbn. rewrite (Hext i) by apply list_elem_of_here.
  destruct (Main.loop_body ep c2n preds' lbls' ho_out' holdout_lbls i
              (ho_results locals)); [ | reflexivity].
  cbn. apply IH. intros j results Hj. apply Hext. by apply list_elem_of_further.
Qed.

Lemma evaluation_ext w :
  (forall i results,
     i < length holdout_lbls ->
     Main.loop_body ep c2n preds lbls ho_out holdout_lbls i results
     = Main.loop_body ep c2n preds' lbls' ho_out' holdout_lbls i results) ->
  Main.evaluation ep c2n preds lbls ho_out holdout_lbls w
  = Main.evaluation ep c2n preds' lbls' ho_out' holdout_lbls w.
Proof.
  intros Hext. unfold Main.evaluation, mbind, time_time, lift.
  rewrite for_range_ext; [reflexivity | ].
  intros i results Hi. apply Hext.
  apply list_elem_of_lookup in Hi as [j Hj]. apply lookup_seq in Hj. lia.
Qed.

End Inputs.

Lemma subscript_same_length {A B} what (xs : list A) (ys : list B) i {C}
    (k : Result C) :
  length xs = length ys ->
  (_ <- subscript what xs i ;; k)%result = (_ <- subscript what ys i ;; k)%result.
Proof.
  intros Hlen. unfold subscript.
  destruct (xs !! i) as [x | ] eqn:Hx.
  - apply lookup_lt_Some in Hx.
    destruct (lookup_lt_is_Some_2 ys i) as [y ->]; [lia | reflexivity].
  - apply lookup_ge_None in Hx. by rewrite lookup_ge_None_2 by lia.
Qed.

Lemma ndarray_item_take n a i :
  i < n -> Main.ndarray_item (take n a) i = Main.ndarray_item a i.
Proof.
  intros Hi. unfold Main.ndarray_item, subscript.
  rewrite lookup_take_lt by exact Hi.
  destruct (a !! i) eqn:Ha; [reflexivity | ].
  apply lookup_ge_None in Ha. rewrite take_ge by lia. reflexivity.
Qed.

End PassFacts.

Module PassBounds.
Local Open Scope nat_scope.

(** A loop over the first [n] indices that ends has found a decoded input,
    a prediction, a ground truth and a label at each of them. *)
Lemma for_range_inputs_long {Points Inp : Type}
    (ep : Heatmap -> Heatmap -> Q -> nat -> Result (Points * Points))
    (c2n : Points -> list CanonicalClass -> Result (list string))
    (preds lbls : list Heatmap) (ho_out : list (Inp * Inp))
    (holdout_lbls : list (gmap string string)) n locals reached :
  Main.for_range ep c2n preds lbls ho_out holdout_lbls (seq 0 n) locals = Ok reached ->
  n <= length preds /\ n <= length lbls /\ n <= length ho_out
  /\ n <= length holdout_lbls.
Proof.
  intros Hloop. destruct n as [ | n]; [lia | ].
  apply PassFacts.for_range_ok_inv in Hloop as (rows & _ & Hall & _).
  pose proof (lookup_seq_lt 0 (S n) n ltac:(lia)) as Hseq.
  destruct (Forall2_lookup_l _ _ _ _ _ Hall Hseq) as (row & _ & Hbody).
  apply PassFacts.loop_body_ok_inv in Hbody
    as (io & pred & lbl & names & label & fname
        & Hio & Hpred & Hlbl & _ & Hlabel & _).
  apply lookup_lt_Some in Hio, Hpred, Hlbl, Hlabel. cbn in *. lia.
Qed.

Lemma rows_of_app {Points : Type}
    (ep : Heatmap -> Heatmap -> Q -> nat -> Result (Points * Points))
    (c2n : Points -> list CanonicalClass -> Result (list string))
    (first second : list Tile) :
  rows_of ep c2n (first ++ second)
  = (rows1 <- rows_of ep c2n first ;;
     rows2 <- rows_of ep c2n second ;;
     Ok (rows1 ++ rows2))%result.
Proof.
  induction first as [ | t first IH]; cbn.
  - by destruct (rows_of ep c2n second).
  - destruct (row_of ep c2n t); [ | reflexivity]. cbn. rewrite IH.
    destruct (rows_of ep c2n first); [ | reflexivity]. cbn.
    by destruct (rows_of ep c2n second).
Qed.

(** A pass over tiles that returns has the rows of its tiles. *)
Lemma run_pass_returned_rows {Points Inp : Type}
    (ep : Heatmap -> Heatmap -> Q -> nat -> Result (Points * Points))
    (c2n : Points -> list CanonicalClass -> Result (list string))
    (ho_out : list (Inp * Inp)) (tiles : list Tile) w rows elapsed w' :
  run_pass ep c2n ho_out tiles w = Returned (rows, elapsed) w' ->
  rows_of ep c2n tiles = Ok rows /\ tiles <> [] /\ length tiles <= length ho_out.
Proof.
  intros Hrun.
  assert (Hlen : length tiles <= length ho_out).
  { unfold run_pass in Hrun.
    apply PassFacts.evaluation_returned_inv in Hrun as (reached & Hloop & _).
    apply for_range_inputs_long in Hloop as (_ & _ & Hlen & _).
    unfold labels_of in Hlen. by rewrite length_fmap in Hlen. }
  rewrite (MainFacts.run_pass_rows ep c2n ho_out tiles w Hlen) in Hrun.
  destruct (rows_of ep c2n tiles) as [rows' | ]; [ | discriminate].
  destruct tiles; [discriminate | ]. cbn in Hrun. inversion Hrun.
  by repeat split.
Qed.

End PassBounds.

(** X4.  A pass that returns has made one row per label, for at least one
    label, and had a prediction, a ground truth and a decoded input for
    every label; it has read the clock twice and nothing else of the world, the
    time it gives is the second reading less the first, and it has logged
    one record, which counts as many tiles as there are labels. *)
Theorem evaluation_returns_one_row_per_label {Points Inp : Type}
    (extract_predictions : Heatmap -> Heatmap -> Q -> nat -> Result (Points * Points))
    (classes2name : Points -> list CanonicalClass -> Result (list string))
    (preds lbls : list Heatmap) (ho_out : list (Inp * Inp))
    (holdout_lbls : list (gmap string string))
    (w w' : World) (rows : list Row) (elapsed : Q) :
  Main.evaluation extract_predictions classes2name preds lbls ho_out holdout_lbls w
  = Returned (rows, elapsed) w' ->
  length rows = length holdout_lbls
  /\ holdout_lbls <> []
  /\ (length holdout_lbls <= length preds)%nat
  /\ (length holdout_lbls <= length lbls)%nat
  /\ (length holdout_lbls <= length ho_out)%nat
  /\ elapsed = wall w (S (ticks w)) - wall w (ticks w)
  /\ wall w' = wall w
  /\ ticks w' = S (S (ticks w))
  /\ logged w' = logged w ++ [TimeToPredict (length holdout_lbls) elapsed].
Proof.
  intros Hrun.
  apply PassFacts.evaluation_returned_inv in Hrun
    as (reached & Hloop & -> & Hne & -> & ->).
  pose proof (PassBounds.for_range_inputs_long _ _ _ _ _ _ _ _ _ Hloop)
    as (Hp & Hl & Ho & _).
  apply PassFacts.for_range_ok_inv in Hloop as (rows & -> & Hall & _).
  apply Forall2_length in Hall. rewrite length_seq in Hall.
  repeat split; done.
Qed.

Lemma evaluation_returns_one_row_per_label_witness :
  length demo_rows = length demo_labels
  /\ demo_labels <> []
  /\ (length demo_labels <= length demo_preds)%nat
  /\ (length demo_labels <= length demo_lbls)%nat
  /\ (length demo_labels <= length demo_out)%nat
  /\ 1 + - 0 = wall clock0 1 - wall clock0 0
  /\ wall (mkWorld (wall clock0) 2 [TimeToPredict 2 (1 + - 0)]) = wall clock0
  /\ ticks (mkWorld (wall clock0) 2 [TimeToPredict 2 (1 + - 0)]) = 2%nat
  /\ logged (mkWorld (wall clock0) 2 [TimeToPredict 2 (1 + - 0)])
     = logged clock0 ++ [TimeToPredict (length demo_labels) (1 + - 0)].
Proof.
  apply (evaluation_returns_one_row_per_label
           (Utils.extract_predictions Decoder.Eight) Utils.classes2name
           demo_preds demo_lbls demo_out demo_labels clock0).
  vm_compute. reflexivity.
Defined.

(** X5.  In a pass that returns, row [i] belongs to label [i]: it is made
    of the names that [preds[i]] and [lbls[i]] give, and its last element
    is the ['External ID'] of [holdout_lbls[i]]. *)
Theorem evaluation_row_of_label {Points Inp : Type}
    (extract_predictions : Heatmap -> Heatmap -> Q -> nat -> Result (Points * Points))
    (classes2name : Points -> list CanonicalClass -> Result (list string))
    (preds lbls : list Heatmap) (ho_out : list (Inp * Inp))
    (holdout_lbls : list (gmap string string))
    (w w' : World) (rows : list Row) (elapsed : Q)
    (i : nat) (label : gmap string string) :
  Main.evaluation extract_predictions classes2name preds lbls ho_out holdout_lbls w
  = Returned (rows, elapsed) w' ->
  holdout_lbls !! i = Some label ->
  exists row pred lbl names fname,
    rows !! i = Some row
    /\ preds !! i = Some pred /\ lbls !! i = Some lbl
    /\ Main.tile_names extract_predictions classes2name lbl pred = Ok names
    /\ label !! "External ID"%string = Some fname
    /\ row = (names.1 ++ names.2) ++ [fname]
    /\ last row = Some fname.
Proof.
  intros Hrun Hlabel.
  apply PassFacts.evaluation_returned_inv in Hrun as (reached & Hloop & -> & _).
  apply PassFacts.for_range_ok_inv in Hloop as (rows & -> & Hall & _).
  apply lookup_lt_Some in Hlabel as Hi.
  pose proof (lookup_seq_lt 0 (length holdout_lbls) i Hi) as Hseq.
  destruct (Forall2_lookup_l _ _ _ _ _ Hall Hseq) as (row & Hrow & Hbody).
  cbn in Hbody.
  apply PassFacts.loop_body_ok_inv in Hbody
    as (io & pred & lbl & names & label' & fname
        & _ & Hpred & Hlbl & Hnames & Hlabel' & Hfile & Hout).
  rewrite Hlabel in Hlabel'. inversion Hlabel'; subst label'.
  cbn in Hout. inversion Hout; subst row.
  exists ((names.1 ++ names.2) ++ [fname]), pred, lbl, names, fname.
  repeat split; try done. apply last_snoc.
Qed.

Lemma evaluation_row_of_label_witness :
  exists row pred lbl names fname,
    demo_rows !! 1%nat = Some row
    /\ demo_preds !! 1%nat = Some pred /\ demo_lbls !! 1%nat = Some lbl
    /\ Main.tile_names (Utils.extract_predictions Decoder.Eight) Utils.classes2name
         lbl pred = Ok names
    /\ label_of "tile_b.png" !! "External ID"%string = Some fname
    /\ row = (names.1 ++ names.2) ++ [fname]
    /\ last row = Some fname.
Proof.
  apply (evaluation_row_of_label
           (Utils.extract_predictions Decoder.Eight) Utils.classes2name
           demo_preds demo_lbls demo_out demo_labels clock0
           (mkWorld (wall clock0) 2 [TimeToPredict 2 (1 + - 0)])
           demo_rows (1 + - 0) 1 (label_of "tile_b.png")).
  - vm_compute. reflexivity.
  - reflexivity.
Defined.

(** X6.  A label without the key ['External ID'] ends the pass with
    [KeyError('External ID')]: when the tiles before it have given their
    rows and the tile itself has been decoded and named, the pass raises at
    the lookup of the file name, returns no row and logs nothing. *)
Theorem evaluation_missing_external_id {Points Inp : Type}
    (extract_predictions : Heatmap -> Heatmap -> Q -> nat -> Result (Points * Points))
    (classes2name : Points -> list CanonicalClass -> Result (list string))
    (preds lbls : list Heatmap) (ho_out : list (Inp * Inp))
    (holdout_lbls : list (gmap string string))
    (i : nat) (reached : Locals) (pred lbl : Heatmap)
    (names : list string * list string) (label : gmap string string) (w : World) :
  Main.for_range extract_predictions classes2name preds lbls ho_out holdout_lbls
    (seq 0 i) (mkLocals [] None) = Ok reached ->
  is_Some (ho_out !! i) ->
  preds !! i = Some pred ->
  lbls !! i = Some lbl ->
  Main.tile_names extract_predictions classes2name lbl pred = Ok names ->
  holdout_lbls !! i = Some label ->
  label !! "External ID"%string = None ->
  Main.evaluation extract_predictions classes2name preds lbls ho_out holdout_lbls w
  = Raised (KeyError "External ID") (mkWorld (wall w) (S (ticks w)) (logged w)).
Proof.
  intros Hbefore [io Hio] Hpred Hlbl Hnames Hlabel Hfile.
  apply (MainFacts.evaluation_raises _ _ _ _ _ _ i reached);
    [by eapply lookup_lt_Some | exact Hbefore | ].
  unfold Main.loop_body, Main.ndarray_item, subscript, getitem.
  rewrite Hio, Hpred, Hlbl, Hlabel. cbn [rbind]. rewrite Hnames. cbn [rbind].
  by rewrite Hfile.
Qed.

(** The second label carries a ['file'] instead of an ['External ID']. *)
Lemma evaluation_missing_external_id_witness :
  Main.evaluation (Utils.extract_predictions Decoder.Eight) Utils.classes2name
    demo_preds demo_lbls demo_out
    [label_of "tile_a.png"; {[ "file"%string := "tile_b.png"%string ]}] clock0
  = Raised (KeyError "External ID") (mkWorld (wall clock0) 1 []).
Proof.
  eapply (evaluation_missing_external_id
            (Utils.extract_predictions Decoder.Eight) Utils.classes2name
            demo_preds demo_lbls demo_out
            [label_of "tile_a.png"; {[ "file"%string := "tile_b.png"%string ]}] 1).
  - vm_compute. reflexivity.
  - by eexists.
  - reflexivity.
  - reflexivity.
  - vm_compute. reflexivity.
  - reflexivity.
  - vm_compute. reflexivity.
Defined.

(** X7.  When the decoded batch [ho_out] has fewer entries than there are
    labels, the pass raises at the first index without one, once the tiles
    before it have given their rows: [inp, _ = ho_out[idx]] raises
    [IndexError('list index out of range')] before the prediction and the
    ground truth of that index are read; no row is returned and nothing is
    logged. *)
Theorem evaluation_too_few_inputs {Points Inp : Type}
    (extract_predictions : Heatmap -> Heatmap -> Q -> nat -> Result (Points * Points))
    (classes2name : Points -> list CanonicalClass -> Result (list string))
    (preds lbls : list Heatmap) (ho_out : list (Inp * Inp))
    (holdout_lbls : list (gmap string string)) (reached : Locals) (w : World) :
  (length ho_out < length holdout_lbls)%nat ->
  Main.for_range extract_predictions classes2name preds lbls ho_out holdout_lbls
    (seq 0 (length ho_out)) (mkLocals [] None) = Ok reached ->
  Main.evaluation extract_predictions classes2name preds lbls ho_out holdout_lbls w
  = Raised (IndexError "list index out of range")
      (mkWorld (wall w) (S (ticks w)) (logged w)).
Proof.
  intros Hlabels Hbefore.
  apply (MainFacts.evaluation_raises _ _ _ _ _ _ (length ho_out) reached);
    [exact Hlabels | exact Hbefore | ].
  unfold Main.loop_body, subscript. by rewrite lookup_ge_None_2.
Qed.

(** Two labels, and one tile from the data loader. *)
Lemma evaluation_too_few_inputs_witness :
  Main.evaluation (Utils.extract_predictions Decoder.Eight) Utils.classes2name
    [[scenario_zero; scenario_block 1 1]] [[scenario_block 0 0; scenario_zero]]
    [(tt, tt)] demo_labels clock0
  = Raised (IndexError "list index out of range") (mkWorld (wall clock0) 1 []).
Proof.
  eapply (evaluation_too_few_inputs
            (Utils.extract_predictions Decoder.Eight) Utils.classes2name
            [[scenario_zero; scenario_block 1 1]] [[scenario_block 0 0; scenario_zero]]
            [(tt, tt)] demo_labels).
  - cbn. lia.
  - vm_compute. reflexivity.
Defined.

(** X8.  The pass reads of [ho_out] only how long it is, and of the
    predictions and the ground truths only the entries that have a label:
    decoded inputs of the same length, and predictions and ground truths
    cut to the number of labels, give the same outcome. *)
Theorem evaluation_ignores_unused_inputs {Points Inp Inp' : Type}
    (extract_predictions : Heatmap -> Heatmap -> Q -> nat -> Result (Points * Points))
    (classes2name : Points -> list CanonicalClass -> Result (list string))
    (preds lbls : list Heatmap) (ho_out : list (Inp * Inp))
    (ho_out' : list (Inp' * Inp'))
    (holdout_lbls : list (gmap string string)) (w : World) :
  length ho_out' = length ho_out ->
  Main.evaluation extract_predictions classes2name
    (take (length holdout_lbls) preds) (take (length holdout_lbls) lbls)
    ho_out' holdout_lbls w
  = Main.evaluation extract_predictions classes2name preds lbls ho_out holdout_lbls w.
Proof.
  intros Hlen. apply PassFacts.evaluation_ext. intros i results Hi.
  unfold Main.loop_body.
  rewrite (PassFacts.subscript_same_length _ ho_out' ho_out i _ Hlen).
  by rewrite !PassFacts.ndarray_item_take by exact Hi.
Qed.

Lemma evaluation_ignores_unused_inputs_witness :
  Main.evaluation (Utils.extract_predictions Decoder.Eight) Utils.classes2name
    (take (length demo_labels) (demo_preds ++ [five_channels]))
    (take (length demo_labels) (demo_lbls ++ [five_channels]))
    [(1%nat, 2%nat); (3%nat, 4%nat)] demo_labels clock0
  = Main.evaluation (Utils.extract_predictions Decoder.Eight) Utils.classes2name
      (demo_preds ++ [five_channels]) (demo_lbls ++ [five_channels])
      demo_out demo_labels clock0.
Proof.
  apply (evaluation_ignores_unused_inputs
           (Utils.extract_predictions Decoder.Eight) Utils.classes2name).
  reflexivity.
Defined.

(** X9.  The pass raises in exactly two ways.  Either the body of the loop
    raises at some index after the bodies before it have returned: then the
    clock has been read once.  Or there is no label at all and the final
    log line finds [idx] unbound: then the clock has been read twice.  In
    neither case is anything logged. *)
Theorem evaluation_raises_iff {Points Inp : Type}
    (extract_predictions : Heatmap -> Heatmap -> Q -> nat -> Result (Points * Points))
    (classes2name : Points -> list CanonicalClass -> Result (list string))
    (preds lbls : list Heatmap) (ho_out : list (Inp * Inp))
    (holdout_lbls : list (gmap string string)) (w w' : World) (e : exn) :
  Main.evaluation extract_predictions classes2name preds lbls ho_out holdout_lbls w
  = Raised e w'
  <-> (exists i reached,
         (i < length holdout_lbls)%nat
         /\ Main.for_range extract_predictions classes2name preds lbls ho_out
              holdout_lbls (seq 0 i) (mkLocals [] None) = Ok reached
         /\ Main.loop_body extract_predictions classes2name preds lbls ho_out
              holdout_lbls i (ho_results reached) = Err e
         /\ w' = mkWorld (wall w) (S (ticks w)) (logged w))
      \/ (holdout_lbls = [] /\ e = UnboundLocalError "idx"
          /\ w' = mkWorld (wall w) (S (S (ticks w))) (logged w)).
Proof.
  split; [apply PassFacts.evaluation_raised_inv | ].
  intros [(i & reached & Hi & Hbefore & Hbody & ->) | (-> & -> & ->)].
  - by apply (MainFacts.evaluation_raises _ _ _ _ _ _ i reached).
  - reflexivity.
Qed.

(** ** [set] and [sorted] on any label table *)

Module PyFacts.
Import Py.
Local Open Scope nat_scope.

Lemma color_eqb_refl a : color_eqb a a = true.
Proof.
  destruct a as [[r g] b]. unfold color_eqb, num_eqb.
  by rewrite !Qeq_bool_refl.
Qed.

Lemma color_eqb_sym a b : color_eqb a b = color_eqb b a.
Proof.
  destruct a as [[r1 g1] b1], b as [[r2 g2] b2]. unfold color_eqb, num_eqb.
  by rewrite (Qeq_bool_comm r1), (Qeq_bool_comm g1), (Qeq_bool_comm b1).
Qed.

Lemma color_eqb_trans a b c :
  color_eqb a b = true -> color_eqb b c = true -> color_eqb a c = true.
Proof.
  destruct a as [[r1 g1] b1], b as [[r2 g2] b2], c as [[r3 g3] b3].
  unfold color_eqb, num_eqb. rewrite !andb_true_iff.
  intros [[? ?] ?] [[? ?] ?]. repeat split; by eapply Qeq_bool_trans.
Qed.

Lemma class_eqb_refl a : class_eqb a a = true.
Proof.
  unfold class_eqb, str_eqb, num_eqb.
  by rewrite Nat.eqb_refl, String.eqb_refl, color_eqb_refl, Qeq_bool_refl.
Qed.

Lemma class_eqb_sym a b : class_eqb a b = class_eqb b a.
Proof.
  unfold class_eqb, str_eqb, num_eqb.
  by rewrite (Nat.eqb_sym (index a)), (String.eqb_sym (displayName a)),
    (color_eqb_sym (classColor a)), (Qeq_bool_comm (expectedRadiusFraction a)).
Qed.

Lemma class_eqb_trans a b c :
  class_eqb a b = true -> class_eqb b c = true -> class_eqb a c = true.
Proof.
  unfold class_eqb, str_eqb, num_eqb. rewrite !andb_true_iff.
  intros [[[Hi Hn] Hc] Hr] [[[Hi' Hn'] Hc'] Hr']. repeat split.
  - apply Nat.eqb_eq in Hi, Hi'. apply Nat.eqb_eq. congruence.
  - apply String.eqb_eq in Hn, Hn'. apply String.eqb_eq. congruence.
  - by eapply color_eqb_trans.
  - by eapply Qeq_bool_trans.
Qed.

Lemma num_ltb_asym a b : num_ltb a b = true -> num_ltb b a = false.
Proof.
  unfold num_ltb. rewrite <- (Qcompare_antisym a b).
  by destruct (a ?= b)%Q.
Qed.

Lemma str_ltb_asym a b : str_ltb a b = true -> str_ltb b a = false.
Proof.
  unfold str_ltb, String.ltb. rewrite (String.compare_antisym a b).
  by destruct (String.compare b a).
Qed.

Lemma color_ltb_asym a b : color_ltb a b = true -> color_ltb b a = false.
Proof.
  destruct a as [[r1 g1] b1], b as [[r2 g2] b2]. unfold color_ltb, num_eqb.
  rewrite (Qeq_bool_comm r2), (Qeq_bool_comm g2).
  destruct (Qeq_bool r1 r2); cbn [negb]; [ | apply num_ltb_asym].
  destruct (Qeq_bool g1 g2); cbn [negb]; apply num_ltb_asym.
Qed.

Lemma class_ltb_asym a b : class_ltb a b = true -> class_ltb b a = false.
Proof.
  unfold class_ltb, str_eqb.
  rewrite (Nat.eqb_sym (index b)), (String.eqb_sym (displayName b)),
    (color_eqb_sym (classColor b)).
  destruct (index a =? index b) eqn:Hi; cbn [negb].
  - destruct (displayName a =? displayName b)%string; cbn [negb];
      [ | apply str_ltb_asym].
    destruct (color_eqb (classColor a) (classColor b)); cbn [negb];
      [apply num_ltb_asym | apply color_ltb_asym].
  - rewrite Nat.ltb_lt, Nat.ltb_ge. lia.
Qed.

(** [set] keeps elements of its argument, one for each class of [==]. *)
Lemma set_subset xs c : c ∈ set xs -> c ∈ xs.
Proof.
  induction xs as [ | x xs IH]; cbn; [done | ].
  rewrite !elem_of_cons, list_elem_of_filter. intros [-> | [_ Hc]]; auto.
Qed.

Lemma set_cover xs c :
  c ∈ xs -> exists c', c' ∈ set xs /\ class_eqb c' c = true.
Proof.
  induction xs as [ | x xs IH]; [intros H; by apply elem_of_nil in H | ].
  cbn. intros [-> | Hc]%elem_of_cons.
  - exists x. split; [apply list_elem_of_here | apply class_eqb_refl].
  - destruct (IH Hc) as (c' & Hin & Heq).
    destruct (class_eqb x c') eqn:Hx.
    + exists x. split; [apply list_elem_of_here | by eapply class_eqb_trans].
    + exists c'. split; [ | exact Heq].
      apply list_elem_of_further, list_elem_of_filter. by split.
Qed.

Lemma set_length xs : length (set xs) <= length xs.
Proof.
  induction xs as [ | x xs IH]; cbn; [lia | ].
  pose proof (length_filter (fun y => class_eqb x y = false) (set xs)). lia.
Qed.

Lemma pairwise_distinct_filter (P : CanonicalClass -> Prop)
    `{!forall c, Decision (P c)} l :
  pairwise_distinct l -> pairwise_distinct (filter P l).
Proof.
  induction l as [ | a l IH]; [done | ]. intros [Ha Hl].
  rewrite filter_cons. case_decide; [ | by apply IH].
  split; [ | by apply IH].
  apply Forall_forall. intros b [_ Hb]%list_elem_of_filter.
  rewrite Forall_forall in Ha. by apply Ha.
Qed.

Lemma set_distinct xs : pairwise_distinct (set xs).
Proof.
  induction xs as [ | x xs IH]; cbn; [done | ]. split.
  - apply Forall_forall. by intros b [Hb _]%list_elem_of_filter.
  - by apply pairwise_distinct_filter.
Qed.

Lemma pairwise_distinct_perm l l' :
  l ≡ₚ l' -> pairwise_distinct l -> pairwise_distinct l'.
Proof.
  induction 1 as [ | a l l' Hperm IH | a b l | l1 l2 l3 _ IH1 _ IH2]; cbn.
  - done.
  - intros [Ha Hl]. split; [by rewrite <- Hperm | by apply IH].
  - intros [Hb [Ha Hl]]. apply Forall_cons in Hb as [Hba Hb].
    repeat split; try done. constructor; [ | done].
    by rewrite class_eqb_sym.
  - auto.
Qed.

(** [sorted] rearranges its argument into ascending order. *)
Lemma insert_sorted_perm x l : insert_sorted x l ≡ₚ x :: l.
Proof.
  induction l as [ | y l IH]; cbn; [done | ].
  destruct (class_ltb x y); [done | ]. rewrite IH. apply Permutation_swap.
Qed.

Lemma sorted_from_perm acc l :
  foldl (fun acc x => insert_sorted x acc) acc l ≡ₚ acc ++ l.
Proof.
  revert acc. induction l as [ | x l IH]; intros acc; cbn;
    [by rewrite app_nil_r | ].
  rewrite IH, insert_sorted_perm. cbn [app]. apply Permutation_middle.
Qed.

Lemma sorted_perm l : sorted l ≡ₚ l.
Proof. apply (sorted_from_perm [] l). Qed.

Lemma insert_sorted_ascending x l :
  Sorted class_not_after l -> Sorted class_not_after (insert_sorted x l).
Proof.
  induction 1 as [ | y l Hl IH Hhd]; cbn; [by repeat constructor | ].
  destruct (class_ltb x y) eqn:Hxy.
  - constructor; [by constructor | ]. constructor. by apply class_ltb_asym.
  - constructor; [exact IH | ].
    destruct Hhd as [ | z l Hyz]; cbn; [by constructor | ].
    destruct (class_ltb x z); by constructor.
Qed.

Lemma sorted_from_ascending acc l :
  Sorted class_not_after acc ->
  Sorted class_not_after (foldl (fun acc x => insert_sorted x acc) acc l).
Proof.
  revert acc. induction l as [ | x l IH]; intros acc Hacc; cbn; [done | ].
  by apply IH, insert_sorted_ascending.
Qed.

Lemma sorted_ascending l : Sorted class_not_after (sorted l).
Proof. apply sorted_from_ascending. constructor. Qed.

End PyFacts.

(** X10.  Line 137 on any label table: the classes are the tuples of the
    table, one for each set of tuples that are [==], none twice, in
    ascending order, and there are no more of them than raw labels.
    [classes] is this list for [class_map]. *)
Theorem classes_of_any_table (table : gmap string CanonicalClass) :
  (forall c, c ∈ classes_of table -> exists raw, table !! raw = Some c)
  /\ (forall raw c,
        table !! raw = Some c ->
        exists c', c' ∈ classes_of table /\ Py.class_eqb c' c = true)
  /\ pairwise_distinct (classes_of table)
  /\ Sorted class_not_after (classes_of table)
  /\ (length (classes_of table) <= size table)%nat
  /\ classes = classes_of class_map.
Proof.
  unfold classes_of.
  assert (Hin : forall c,
            c ∈ (map_to_list table).*2 <-> exists raw, table !! raw = Some c).
  { intros c. rewrite list_elem_of_fmap. split.
    - intros ([raw c'] & -> & Hm). exists raw. by apply elem_of_map_to_list.
    - intros (raw & Hm). exists (raw, c). split; [done | ].
      by apply elem_of_map_to_list. }
  split; [ | split; [ | split; [ | split; [ | split]]]].
  - intros c Hc. apply Hin, PyFacts.set_subset.
    by rewrite <- (PyFacts.sorted_perm (Py.set _)).
  - intros raw c Hm.
    destruct (PyFacts.set_cover (map_to_list table).*2 c) as (c' & Hc' & Heq);
      [apply Hin; by exists raw | ].
    exists c'. split; [ | exact Heq]. by rewrite PyFacts.sorted_perm.
  - eapply PyFacts.pairwise_distinct_perm;
      [symmetry; apply PyFacts.sorted_perm | apply PyFacts.set_distinct].
  - apply PyFacts.sorted_ascending.
  - rewrite PyFacts.sorted_perm.
    etrans; [apply PyFacts.set_length | ].
    by rewrite length_fmap, length_map_to_list.
  - reflexivity.
Qed.

Lemma classes_of_any_table_witness :
  exists c', c' ∈ classes_of class_map
             /\ Py.class_eqb c' (mkClass 2 "Macro+Mono" MacroMono (19 # 256)) = true.
Proof.
  destruct (classes_of_any_table class_map) as (_ & Hcover & _).
  apply (Hcover "Monocyte"%string). vm_compute. reflexivity.
Defined.

(** X11.  Rows do not depend on the other tiles of the pass: when the pass
    over a first list of tiles returns [rows1] and the pass over a second
    returns [rows2], the pass over the two lists joined returns
    [rows1 ++ rows2], and logs the sum of the two numbers of tiles. *)
Theorem run_pass_app {Points Inp : Type}
    (extract_predictions : Heatmap -> Heatmap -> Q -> nat -> Result (Points * Points))
    (classes2name : Points -> list CanonicalClass -> Result (list string))
    (ho1 ho2 : list (Inp * Inp)) (first second : list Tile)
    (w1 w1' w2 w2' : World) (rows1 rows2 : list Row) (t1 t2 : Q) :
  run_pass extract_predictions classes2name ho1 first w1 = Returned (rows1, t1) w1' ->
  run_pass extract_predictions classes2name ho2 second w2 = Returned (rows2, t2) w2' ->
  forall w : World,
    run_pass extract_predictions classes2name (ho1 ++ ho2) (first ++ second) w
    = Returned (rows1 ++ rows2, wall w (S (ticks w)) - wall w (ticks w))
        (mkWorld (wall w) (S (S (ticks w)))
           (logged w ++ [TimeToPredict (length first + length second)
                           (wall w (S (ticks w)) - wall w (ticks w))])).
Proof.
  intros Hfirst Hsecond w.
  apply PassBounds.run_pass_returned_rows in Hfirst as (Hrows1 & Hne & Hlen1).
  apply PassBounds.run_pass_returned_rows in Hsecond as (Hrows2 & _ & Hlen2).
  rewrite MainFacts.run_pass_rows by (rewrite !length_app; lia).
  rewrite PassBounds.rows_of_app, Hrows1, Hrows2. cbn [rbind].
  destruct first as [ | t first]; [done | ].
  cbn [app]. by rewrite <- length_app.
Qed.

Lemma run_pass_app_witness :
  run_pass (Utils.extract_predictions Decoder.Eight) Utils.classes2name
    ([(tt, tt)] ++ [(tt, tt)])
    ([([scenario_block 0 0; scenario_zero], [scenario_zero; scenario_block 1 1],
       "tile_a.png"%string)]
     ++ [([scenario_zero; scenario_block 1 1], [scenario_block 0 0; scenario_zero],
          "tile_b.png"%string)])
    clock0
  = Returned
      ([["Eosinophil"; "Lymphocyte"; "tile_a.png"]%string]
       ++ [["Lymphocyte"; "Eosinophil"; "tile_b.png"]%string],
       wall clock0 1 - wall clock0 0)
      (mkWorld (wall clock0) 2
         (logged clock0 ++ [TimeToPredict (1 + 1) (wall clock0 1 - wall clock0 0)])).
Proof.
  eapply (run_pass_app (Utils.extract_predictions Decoder.Eight) Utils.classes2name
            [(tt, tt)] [(tt, tt)]
            [([scenario_block 0 0; scenario_zero], [scenario_zero; scenario_block 1 1],
              "tile_a.png"%string)]
            [([scenario_zero; scenario_block 1 1], [scenario_block 0 0; scenario_zero],
              "tile_b.png"%string)]
            clock0 _ clock0 _).
  - vm_compute. reflexivity.
  - vm_compute. reflexivity.
Defined.

Module PassTotal.
Local Open Scope nat_scope.

Section Loop.

Context {Points : Type}.
Variable ep : Heatmap -> Heatmap -> Q -> nat -> Result (Points * Points).
Variable c2n : Points -> list CanonicalClass -> Result (list string).
Context {Inp : Type}.
Variable preds lbls : list Heatmap.
Variable ho_out : list (Inp * Inp).
Variable holdout_lbls : list (gmap string string).

(** A body that returns appends its one row to whatever rows there are. *)
Lemma loop_body_appends i row results :
  Main.loop_body ep c2n preds lbls ho_out holdout_lbls i [] = Ok [row] ->
  Main.loop_body ep c2n preds lbls ho_out holdout_lbls i results
  = Ok (results ++ [row]).
Proof.
  intros Hbody.
  apply PassFacts.loop_body_ok_inv in Hbody
    as (io & pred & lbl & names & label & fname
        & Hio & Hpred & Hlbl & Hnames & Hlabel & Hfile & Hout).
  cbn in Hout. inversion Hout; subst row.
  unfold Main.loop_body, Main.ndarray_item, subscript, getitem.
  rewrite Hio, Hpred, Hlbl, Hlabel. cbn [rbind]. rewrite Hnames. cbn [rbind].
  by rewrite Hfile.
Qed.

Lemma for_range_all_return indices rows locals :
  Forall2 (fun i row =>
             Main.loop_body ep c2n preds lbls ho_out holdout_lbls i [] = Ok [row])
    indices rows ->
  Main.for_range ep c2n preds lbls ho_out holdout_lbls indices locals
  = Ok (mkLocals (ho_results locals ++ rows)
                 (idx_after_loop indices (idx locals))).
Proof.
  intros Hall. revert locals.
  induction Hall as [ | i row indices rows Hbody _ IH]; intros locals.
  - cbn. rewrite app_nil_r. by destruct locals.
  - cbn [Main.for_range]. rewrite (loop_body_appends i row _ Hbody). cbn [rbind].
    rewrite IH. cbn [ho_results idx].
    by rewrite <- (assoc_L (++)), PassFacts.idx_after_loop_cons.
Qed.

End Loop.

End PassTotal.

(** X12.  The pass returns exactly when there is at least one label and the
    body of the loop returns at every index below the number of labels; it
    then gives the rows of the indices in order, the time between the two
    readings of the clock, and one log record. *)
Theorem evaluation_returns_iff {Points Inp : Type}
    (extract_predictions : Heatmap -> Heatmap -> Q -> nat -> Result (Points * Points))
    (classes2name : Points -> list CanonicalClass -> Result (list string))
    (preds lbls : list Heatmap) (ho_out : list (Inp * Inp))
    (holdout_lbls : list (gmap string string))
    (w w' : World) (rows : list Row) (elapsed : Q) :
  Main.evaluation extract_predictions classes2name preds lbls ho_out holdout_lbls w
  = Returned (rows, elapsed) w'
  <-> holdout_lbls <> []
      /\ Forall2
           (fun i row =>
              Main.loop_body extract_predictions classes2name preds lbls ho_out
                holdout_lbls i [] = Ok [row])
           (seq 0 (length holdout_lbls)) rows
      /\ elapsed = wall w (S (ticks w)) - wall w (ticks w)
      /\ w' = mkWorld (wall w) (S (S (ticks w)))
                (logged w ++ [TimeToPredict (length holdout_lbls) elapsed]).
Proof.
  split.
  - intros Hrun.
    apply PassFacts.evaluation_returned_inv in Hrun
      as (reached & Hloop & -> & Hne & -> & ->).
    apply PassFacts.for_range_ok_inv in Hloop as (rows & -> & Hall & _).
    by repeat split.
  - intros (Hne & Hall & -> & ->).
    unfold Main.evaluation, mbind, time_time, lift. cbn [wall ticks logged].
    rewrite (PassTotal.for_range_all_return _ _ _ _ _ _ _ rows _ Hall).
    cbn [ho_results idx app]. unfold Main.load_idx, idx_after_loop. cbn [idx].
    destruct (last (seq 0 (length holdout_lbls))) as [i | ] eqn:Hlast.
    + rewrite last_lookup, length_seq in Hlast.
      apply lookup_seq in Hlast as [-> Hlt]. cbn. unfold mret.
      replace (Init.Nat.pred (length holdout_lbls) + 1)%nat
        with (length holdout_lbls) by lia.
      reflexivity.
    + apply last_None in Hlast. destruct holdout_lbls; [done | discriminate].
Qed.
